(** * Annotator: the mask raster engine of the segmentation editor

    A shallow embedding of [src/components/CanvasEditor.tsx] (mask store,
    drawing tools, flood fill, export compositor) and of [src/App.tsx]
    (layer registry and snapshot history), with the properties stated by
    the specification proved over it.

    Conventions.
    - A JavaScript [number] that carries a coordinate, a zoom factor or a
      tolerance is a binary64 value ([PrimFloat.float]); array offsets and
      image dimensions, which the code only ever uses as non-negative
      integers, are [nat]; colour channels are [Z] in [0, 255].
    - A bitmap is the byte array an [ImageData] exposes: four bytes
      (R, G, B, A) per pixel, rows top to bottom.
    - The mask store ([Map<string, HTMLCanvasElement>]) and a [MaskState]
      object are finite maps keyed by layer id. *)

From Stdlib Require Import ZArith Floats Lia.
From stdpp Require Import base tactics option list strings pretty gmap.

Local Open Scope nat_scope.

(** A decimal literal stands for the nearest binary64 value, as it does
    in JavaScript. *)
Set Warnings "-inexact-float".

(** ** Numbers *)

(** An integer in [0, 2^53) as a binary64 value. *)
Definition z2f (z : Z) : float := PrimFloat.of_uint63 (Uint63.of_Z z).

(** The value of [Math.floor]: an integer, or one of the three
    non-numbers a binary64 value can be. *)
Inductive jsint :=
  | JNaN
  | JNegInf
  | JPosInf
  | JFin (z : Z).

Definition Math_floor (f : float) : jsint :=
  match Prim2SF f with
  | S754_nan => JNaN
  | S754_infinity s => if s then JNegInf else JPosInf
  | S754_zero _ => JFin 0
  | S754_finite s m e =>
      let v := if s then Z.neg m else Z.pos m in
      JFin (if (0 <=? e)%Z then v * 2 ^ e else v / 2 ^ (- e))%Z
  end.

(** [v < 0 || v >= n] on the result of [Math.floor]; every comparison
    with NaN is false. *)
Definition outside (v : jsint) (n : nat) : bool :=
  match v with
  | JNaN => false
  | JNegInf | JPosInf => true
  | JFin z => (z <? 0)%Z || (Z.of_nat n <=? z)%Z
  end.

Record Point := { px : float; py : float }.

(** ** Flood fill over the byte arrays (performFloodFill, the loop) *)

(** [Math.abs(c - c0) <= tol]; a read past the end of a typed array is
    [undefined], the difference is NaN and the comparison is false. *)
Definition channelClose (tol : float) (c c0 : option Z) : bool :=
  match c, c0 with
  | Some v, Some v0 => PrimFloat.leb (z2f (Z.abs (v - v0))) tol
  | _, _ => false
  end.

(** [const tol = tolerance * 2.55]. *)
Definition toleranceScale : float := 0x1.4666666666666p+1%float.

Definition colorTol (tolerance : float) : float :=
  (tolerance * toleranceScale)%float.

Definition colorMatch (srcData : list Z) (startIdx : nat) (tol : float)
    (idx : nat) : bool :=
  channelClose tol (srcData !! idx) (srcData !! startIdx)
  && channelClose tol (srcData !! (idx + 1)) (srcData !! (startIdx + 1))
  && channelClose tol (srcData !! (idx + 2)) (srcData !! (startIdx + 2)).

Record FillState := {
  stack : list nat;        (* top of the stack first *)
  visited : list bool;     (* Uint8Array(width * height) *)
  maskData : list Z        (* maskImgData.data *)
}.

(** The four assignments [maskData[idx .. idx+3] = 255]. *)
Definition writeWhite (md : list Z) (idx : nat) : list Z :=
  <[idx + 3 := 255%Z]> (<[idx + 2 := 255%Z]> (<[idx + 1 := 255%Z]>
    (<[idx := 255%Z]> md))).

(** [if (!visited[nIdx / 4] && colorMatch(nIdx)) { visited[nIdx / 4] = 1;
    stack.push(nIdx); }] *)
Definition tryPush (srcData : list Z) (startIdx : nat) (tol : float)
    (nIdx : nat) (sv : list nat * list bool) : list nat * list bool :=
  if negb (default false (sv.2 !! (nIdx / 4)))
     && colorMatch srcData startIdx tol nIdx
  then (nIdx :: sv.1, <[nIdx / 4 := true]> sv.2)
  else sv.

(** One iteration of the [while] loop, for a non-empty stack. *)
Definition fillStep (width height : nat) (srcData : list Z) (startIdx : nat)
    (tol : float) (st : FillState) : FillState :=
  match stack st with
  | [] => st
  | idx :: rest =>
      let md := writeWhite (maskData st) idx in
      let stride := width * 4 in
      let x := (idx / 4) mod width in
      let y := (idx / 4) / width in
      let s0 := (rest, visited st) in
      let s1 := if x <? width - 1
                then tryPush srcData startIdx tol (idx + 4) s0 else s0 in
      let s2 := if 0 <? x
                then tryPush srcData startIdx tol (idx - 4) s1 else s1 in
      let s3 := if y <? height - 1
                then tryPush srcData startIdx tol (idx + stride) s2 else s2 in
      let s4 := if 0 <? y
                then tryPush srcData startIdx tol (idx - stride) s3 else s3 in
      {| stack := s4.1; visited := s4.2; maskData := md |}
  end.

(** [while (stack.length > 0) { ... }] with an iteration budget. *)
Fixpoint fillLoop (fuel : nat) (width height : nat) (srcData : list Z)
    (startIdx : nat) (tol : float) (st : FillState) : FillState :=
  match fuel with
  | 0 => st
  | S fuel' =>
      match stack st with
      | [] => st
      | _ :: _ =>
          fillLoop fuel' width height srcData startIdx tol
            (fillStep width height srcData startIdx tol st)
      end
  end.

(** Lines 272-338: from the seed offset to the final [maskData].  Every
    pixel enters the stack at most once, so [width * height] iterations
    empty it (lemma [floodFill_stack_empty]). *)
Definition floodFillState (width height : nat) (srcData : list Z)
    (tol : float) (startX startY : nat) (maskData0 : list Z) : FillState :=
  let startIdx := (startY * width + startX) * 4 in
  fillLoop (width * height) width height srcData startIdx tol
    {| stack := [startIdx];
       visited := <[startIdx / 4 := true]> (replicate (width * height) false);
       maskData := maskData0 |}.

Definition floodFillData (width height : nat) (srcData : list Z)
    (tol : float) (startX startY : nat) (maskData0 : list Z) : list Z :=
  maskData (floodFillState width height srcData tol startX startY maskData0).

(** ** Pixels of a bitmap *)

Definition RGBA : Type := Z * Z * Z * Z.

Definition pixelAt (data : list Z) (p : nat) : option RGBA :=
  r ← data !! (4 * p);
  g ← data !! (4 * p + 1);
  b ← data !! (4 * p + 2);
  a ← data !! (4 * p + 3);
  Some (r, g, b, a).

Definition opaqueWhite : RGBA := (255, 255, 255, 255)%Z.

(** ** The region the specification describes *)

(** Row-major position of the pixel at column [c.1], row [c.2]. *)
Definition pixelIndex (width : nat) (c : nat * nat) : nat :=
  c.2 * width + c.1.

Definition inBounds (width height : nat) (c : nat * nat) : Prop :=
  c.1 < width ∧ c.2 < height.

(** Horizontal or vertical neighbours (4-connectivity). *)
Definition neighbour4 (c d : nat * nat) : Prop :=
  (c.2 = d.2 ∧ (d.1 = S c.1 ∨ c.1 = S d.1))
  ∨ (c.1 = d.1 ∧ (d.2 = S c.2 ∨ c.2 = S d.2)).

(** The 4-connected component of [seed]: the seed, and every in-bounds
    pixel satisfying [P] that is a neighbour of a pixel of the component. *)
Inductive component4 (width height : nat) (P : nat * nat → Prop)
    (seed : nat * nat) : nat * nat → Prop :=
  | component4_seed : component4 width height P seed seed
  | component4_step c d :
      component4 width height P seed c →
      neighbour4 c d → inBounds width height d → P d →
      component4 width height P seed d.

(** [|R - R0| <= T ∧ |G - G0| <= T ∧ |B - B0| <= T] between the source
    pixel at [c] and the source pixel at [seed]; alpha is not read. *)
Definition withinTolerance (width : nat) (srcData : list Z) (tol : float)
    (seed c : nat * nat) : Prop :=
  ∃ r g b a r0 g0 b0 a0,
    pixelAt srcData (pixelIndex width c) = Some (r, g, b, a)
    ∧ pixelAt srcData (pixelIndex width seed) = Some (r0, g0, b0, a0)
    ∧ PrimFloat.leb (z2f (Z.abs (r - r0))) tol = true
    ∧ PrimFloat.leb (z2f (Z.abs (g - g0))) tol = true
    ∧ PrimFloat.leb (z2f (Z.abs (b - b0))) tol = true.


Example Math_floor_pos : Math_floor 2.75%float = JFin 2.
Proof. reflexivity. Qed.

Example Math_floor_neg : Math_floor (-0.25)%float = JFin (-1).
Proof. reflexivity. Qed.

Example colorTol_100 : PrimFloat.ltb (colorTol 100) 255 = true.
Proof. reflexivity. Qed.

(** A 3x1 image black, black, white: tolerance 0 from pixel 0 fills the
    first two pixels. *)
Example floodFillData_3x1 :
  floodFillData 3 1 [0;0;0;255; 0;0;0;255; 255;255;255;255]%Z 0%float 0 0
    (replicate 12 0%Z)
  = [255;255;255;255; 255;255;255;255; 0;0;0;0]%Z.
Proof. reflexivity. Qed.

(** ** Arithmetic of pixel positions and byte offsets *)

Lemma pixelIndex_lt width height c :
  inBounds width height c → pixelIndex width c < width * height.
Proof.
  destruct c as [x y]. unfold inBounds, pixelIndex. simpl. intros [Hx Hy]. nia.
Qed.

Lemma pixelIndex_mod width c : c.1 < width → pixelIndex width c mod width = c.1.
Proof.
  intros Hx. unfold pixelIndex.
  rewrite Nat.add_comm, Nat.Div0.mod_add. by apply Nat.mod_small.
Qed.

Lemma pixelIndex_div width c : c.1 < width → pixelIndex width c / width = c.2.
Proof.
  intros Hx. unfold pixelIndex.
  rewrite Nat.div_add_l by lia. rewrite (Nat.div_small c.1) by done. lia.
Qed.

Lemma pixelIndex_inj width c d :
  c.1 < width → d.1 < width → pixelIndex width c = pixelIndex width d → c = d.
Proof.
  intros Hc Hd Heq.
  pose proof (pixelIndex_mod width c Hc) as Hm1.
  pose proof (pixelIndex_mod width d Hd) as Hm2.
  pose proof (pixelIndex_div width c Hc) as Hd1.
  pose proof (pixelIndex_div width d Hd) as Hd2.
  rewrite Heq in Hm1, Hd1. destruct c, d. simpl in *. congruence.
Qed.

Lemma byteOffset_div4 p : 4 * p / 4 = p.
Proof. rewrite Nat.mul_comm. by apply Nat.div_mul. Qed.

(** ** The four writes of one iteration *)

Lemma length_writeWhite md idx : length (writeWhite md idx) = length md.
Proof. unfold writeWhite. by rewrite !length_insert. Qed.

Lemma writeWhite_lookup_in md idx k :
  idx + 3 < length md → k < 4 → writeWhite md idx !! (idx + k) = Some 255%Z.
Proof.
  intros Hlen Hk. unfold writeWhite.
  destruct (decide (k = 3)) as [->|];
    [by rewrite list_lookup_insert_eq by (rewrite !length_insert; lia)|].
  rewrite list_lookup_insert_ne by lia.
  destruct (decide (k = 2)) as [->|];
    [by rewrite list_lookup_insert_eq by (rewrite !length_insert; lia)|].
  rewrite list_lookup_insert_ne by lia.
  destruct (decide (k = 1)) as [->|];
    [by rewrite list_lookup_insert_eq by (rewrite !length_insert; lia)|].
  rewrite list_lookup_insert_ne by lia.
  assert (k = 0) as -> by lia. rewrite Nat.add_0_r.
  by rewrite list_lookup_insert_eq by lia.
Qed.

Lemma writeWhite_lookup_out md idx j :
  j < idx ∨ idx + 3 < j → writeWhite md idx !! j = md !! j.
Proof.
  intros Hj. unfold writeWhite. by rewrite !list_lookup_insert_ne by lia.
Qed.

Lemma insert_keeps_255 (md : list Z) i j :
  md !! j = Some 255%Z → <[i:=255%Z]> md !! j = Some 255%Z.
Proof.
  intros Hj. pose proof (lookup_lt_Some _ _ _ Hj) as Hlt.
  destruct (decide (i = j)) as [->|Hne].
  - by rewrite list_lookup_insert_eq.
  - by rewrite list_lookup_insert_ne.
Qed.

Lemma writeWhite_keeps_255 md idx j :
  md !! j = Some 255%Z → writeWhite md idx !! j = Some 255%Z.
Proof. intros Hj. unfold writeWhite. by do 4 apply insert_keeps_255. Qed.

(** ** Progress measure: pending stack entries plus unvisited pixels *)

Fixpoint unvisited (vis : list bool) : nat :=
  match vis with
  | [] => 0
  | b :: vis' => (if b then 0 else 1) + unvisited vis'
  end.

Lemma unvisited_replicate n : unvisited (replicate n false) = n.
Proof. induction n as [|n IH]; simpl; [done|]. by rewrite IH. Qed.

Lemma unvisited_insert vis i :
  vis !! i = Some false → S (unvisited (<[i:=true]> vis)) = unvisited vis.
Proof.
  revert i. induction vis as [|b vis IH]; intros [|i] Hi; simplify_eq/=.
  - done.
  - rewrite <- (IH i Hi). destruct b; simpl; lia.
Qed.

Lemma lookup_default_false (vis : list bool) i :
  i < length vis → default false (vis !! i) = false → vis !! i = Some false.
Proof.
  intros Hlt Hd. destruct (lookup_lt_is_Some_2 vis i Hlt) as [b Hb].
  rewrite Hb in Hd |- *. simpl in Hd. by subst.
Qed.

Lemma lookup_default_true (vis : list bool) i :
  default false (vis !! i) = true → vis !! i = Some true.
Proof. destruct (vis !! i) as [[]|]; simpl; congruence. Qed.

(** ** The loop invariant *)

Section FillInvariant.
Context (width height : nat) (srcData : list Z) (tol : float).
Context (seed : nat * nat) (orig : list Z).
Hypothesis seed_in : inBounds width height seed.
Hypothesis orig_len : length orig = 4 * (width * height).

Let startIdx : nat := 4 * pixelIndex width seed.

(** The test the loop applies to a candidate pixel. *)
Definition matches (c : nat * nat) : Prop :=
  colorMatch srcData (4 * pixelIndex width seed) tol
    (4 * pixelIndex width c) = true.

Definition visitedAt (vis : list bool) (c : nat * nat) : Prop :=
  vis !! pixelIndex width c = Some true.

(** What pushing the neighbours of [c0] may change. *)
Record Grows (c0 : nat * nat) (sv sv' : list nat * list bool) : Prop := {
  gr_len : length sv'.2 = length sv.2;
  gr_mono : ∀ i, sv.2 !! i = Some true → sv'.2 !! i = Some true;
  gr_stack : ∀ i, i ∈ sv.1 → i ∈ sv'.1;
  gr_new_vis : ∀ c, inBounds width height c → visitedAt sv'.2 c →
    visitedAt sv.2 c
    ∨ (neighbour4 c0 c ∧ matches c ∧ 4 * pixelIndex width c ∈ sv'.1);
  gr_new_stack : ∀ i, i ∈ sv'.1 →
    i ∈ sv.1
    ∨ ∃ d, inBounds width height d ∧ neighbour4 c0 d ∧ matches d
           ∧ i = 4 * pixelIndex width d ∧ visitedAt sv'.2 d;
  gr_measure :
    length sv'.1 + unvisited sv'.2 ≤ length sv.1 + unvisited sv.2
}.

Lemma Grows_refl c0 sv : Grows c0 sv sv.
Proof. split; auto. Qed.

Lemma Grows_trans c0 sv1 sv2 sv3 :
  Grows c0 sv1 sv2 → Grows c0 sv2 sv3 → Grows c0 sv1 sv3.
Proof.
  intros [L1 M1 S1 V1 N1 U1] [L2 M2 S2 V2 N2 U2]. split.
  - congruence.
  - auto.
  - auto.
  - intros c Hc Hv. destruct (V2 c Hc Hv) as [Hv2|?]; [|by right].
    destruct (V1 c Hc Hv2) as [?|(?&?&?)]; [by left|right; auto].
  - intros i Hi. destruct (N2 i Hi) as [Hi2|?]; [|by right].
    destruct (N1 i Hi2) as [?|(d&?&?&?&?&Hvd)]; [by left|right].
    exists d. split_and!; auto. apply M2, Hvd.
  - lia.
Qed.

Lemma tryPush_Grows c0 d sv :
  length sv.2 = width * height →
  inBounds width height d → neighbour4 c0 d →
  let sv' := tryPush srcData startIdx tol (4 * pixelIndex width d) sv in
  Grows c0 sv sv' ∧ (matches d → visitedAt sv'.2 d).
Proof.
  intros Hlen Hd Hn sv'. subst sv'. unfold tryPush.
  rewrite byteOffset_div4.
  pose proof (pixelIndex_lt _ _ _ Hd) as Hlt.
  destruct (default false (sv.2 !! pixelIndex width d)) eqn:Hvis;
    cbn [negb andb].
  { split; [apply Grows_refl|]. intros _. by apply lookup_default_true. }
  apply lookup_default_false in Hvis; [|lia].
  destruct (colorMatch srcData startIdx tol (4 * pixelIndex width d))
    eqn:Hm.
  2:{ split; [apply Grows_refl|]. unfold matches. fold startIdx.
      congruence. }
  split.
  - split; cbn [fst snd].
    + by rewrite length_insert.
    + intros i Hi. destruct (decide (pixelIndex width d = i)) as [<-|].
      * congruence.
      * by rewrite list_lookup_insert_ne.
    + intros i Hi. by apply elem_of_cons; right.
    + intros c Hc Hv. unfold visitedAt in *.
      destruct (decide (pixelIndex width d = pixelIndex width c))
        as [Heq|Hne].
      * right. apply pixelIndex_inj in Heq; [|apply Hd|apply Hc].
        subst c. split; [done|]. split; [exact Hm|].
        apply elem_of_cons; by left.
      * left. by rewrite list_lookup_insert_ne in Hv.
    + intros i Hi. apply elem_of_cons in Hi as [->|Hi]; [|by left].
      right. exists d. split_and!; try done.
      unfold visitedAt. apply list_lookup_insert_eq. lia.
    + pose proof (unvisited_insert _ _ Hvis). cbn [length]. lia.
  - intros _. unfold visitedAt. cbn [snd].
    apply list_lookup_insert_eq. lia.
Qed.

Lemma pushIf_Grows c0 d (g : bool) nIdx sv :
  length sv.2 = width * height →
  (g = true →
   inBounds width height d ∧ neighbour4 c0 d ∧ nIdx = 4 * pixelIndex width d) →
  let sv' := if g then tryPush srcData startIdx tol nIdx sv else sv in
  Grows c0 sv sv' ∧ (g = true → matches d → visitedAt sv'.2 d).
Proof.
  intros Hlen Hg. destruct g; cbn zeta.
  - destruct (Hg eq_refl) as (Hd & Hn & ->).
    destruct (tryPush_Grows c0 d sv Hlen Hd Hn) as [HG Hv]. split; auto.
  - split; [apply Grows_refl|done].
Qed.

(** The state of the loop between two iterations; [done] lists the
    pixels already popped. *)
Record FillInv (done : list (nat * nat)) (st : FillState) : Prop := {
  inv_len_vis : length (visited st) = width * height;
  inv_len_md : length (maskData st) = length orig;
  inv_stack : ∀ idx, idx ∈ stack st →
    ∃ c, inBounds width height c ∧ idx = 4 * pixelIndex width c
         ∧ visitedAt (visited st) c;
  inv_vis_comp : ∀ c, inBounds width height c → visitedAt (visited st) c →
    component4 width height matches seed c;
  inv_vis_cases : ∀ c, inBounds width height c → visitedAt (visited st) c →
    c ∈ done ∨ 4 * pixelIndex width c ∈ stack st;
  inv_done : ∀ c, c ∈ done →
    inBounds width height c ∧ visitedAt (visited st) c
    ∧ (∀ k, k < 4 → maskData st !! (4 * pixelIndex width c + k) = Some 255%Z)
    ∧ (∀ d, neighbour4 c d → inBounds width height d → matches d →
            visitedAt (visited st) d);
  inv_rest : ∀ c, inBounds width height c → c ∉ done → ∀ k, k < 4 →
    maskData st !! (4 * pixelIndex width c + k)
    = orig !! (4 * pixelIndex width c + k);
  inv_seed : visitedAt (visited st) seed
}.

Definition fillMeasure (st : FillState) : nat :=
  length (stack st) + unvisited (visited st).

Lemma fillStep_inv done st idx rest :
  FillInv done st → stack st = idx :: rest →
  ∃ c0,
    FillInv (c0 :: done) (fillStep width height srcData startIdx tol st)
    ∧ fillMeasure (fillStep width height srcData startIdx tol st)
      < fillMeasure st.
Proof.
  intros Inv Hst.
  destruct (inv_stack _ _ Inv idx) as ([x0 y0] & Hc0 & Hidx & Hv0);
    [rewrite Hst; by left|].
  pose proof (pixelIndex_lt _ _ _ Hc0) as Hlt0.
  assert (component4 width height matches seed (x0, y0)) as Hcomp0
    by (by apply (inv_vis_comp _ _ Inv)).
  destruct Hc0 as [Hx0 Hy0]; cbn [fst snd] in Hx0, Hy0.
  exists (x0, y0). unfold fillStep, fillMeasure. rewrite Hst. subst idx.
  rewrite byteOffset_div4, pixelIndex_mod, pixelIndex_div by done.
  cbn [fst snd]. cbn zeta.
  set (s0 := (rest, visited st)).
  assert (length s0.2 = width * height) as L0 by apply (inv_len_vis _ _ Inv).
  (* right *)
  destruct (pushIf_Grows (x0, y0) (S x0, y0) (x0 <? width - 1)
              (4 * pixelIndex width (x0, y0) + 4) s0 L0) as [G1 C1].
  { intros Hg%Nat.ltb_lt. split_and!.
    - split; cbn [fst snd]; lia.
    - left. cbn [fst snd]. auto.
    - unfold pixelIndex. cbn [fst snd]. lia. }
  set (s1 := if x0 <? width - 1 then _ else _) in *.
  assert (length s1.2 = width * height) as L1
    by (rewrite (gr_len _ _ _ G1); done).
  (* left *)
  destruct (pushIf_Grows (x0, y0) (x0 - 1, y0) (0 <? x0)
              (4 * pixelIndex width (x0, y0) - 4) s1 L1) as [G2 C2].
  { intros Hg%Nat.ltb_lt. split_and!.
    - split; cbn [fst snd]; lia.
    - left. cbn [fst snd]. split; [done|]. right. lia.
    - unfold pixelIndex. cbn [fst snd]. lia. }
  set (s2 := if 0 <? x0 then _ else _) in *.
  assert (length s2.2 = width * height) as L2
    by (rewrite (gr_len _ _ _ G2); done).
  (* down *)
  destruct (pushIf_Grows (x0, y0) (x0, S y0) (y0 <? height - 1)
              (4 * pixelIndex width (x0, y0) + width * 4) s2 L2) as [G3 C3].
  { intros Hg%Nat.ltb_lt. split_and!.
    - split; cbn [fst snd]; lia.
    - right. cbn [fst snd]. auto.
    - unfold pixelIndex. cbn [fst snd]. lia. }
  set (s3 := if y0 <? height - 1 then _ else _) in *.
  assert (length s3.2 = width * height) as L3
    by (rewrite (gr_len _ _ _ G3); done).
  (* up *)
  destruct (pushIf_Grows (x0, y0) (x0, y0 - 1) (0 <? y0)
              (4 * pixelIndex width (x0, y0) - width * 4) s3 L3) as [G4 C4].
  { intros Hg%Nat.ltb_lt. split_and!.
    - split; cbn [fst snd]; lia.
    - right. cbn [fst snd]. split; [done|]. right. lia.
    - unfold pixelIndex. cbn [fst snd].
      destruct y0 as [|y0]; [lia|]. rewrite Nat.sub_succ, Nat.sub_0_r. lia. }
  set (s4 := if 0 <? y0 then _ else _) in *.
  pose proof (Grows_trans _ _ _ _ (Grows_trans _ _ _ _
    (Grows_trans _ _ _ _ G1 G2) G3) G4) as G.
  pose proof (Grows_trans _ _ _ _ G2 (Grows_trans _ _ _ _ G3 G4)) as G24.
  pose proof (Grows_trans _ _ _ _ G3 G4) as G34.
  split.
  - split; cbn [stack visited maskData].
    + rewrite (gr_len _ _ _ G). done.
    + rewrite length_writeWhite. apply (inv_len_md _ _ Inv).
    + intros i Hi. destruct (gr_new_stack _ _ _ G i Hi) as [Hr|Hn].
      * destruct (inv_stack _ _ Inv i) as (c & ? & ? & ?);
          [rewrite Hst; by right|].
        exists c. split_and!; try done. by apply (gr_mono _ _ _ G).
      * destruct Hn as (d & ? & ? & ? & ? & ?). by exists d.
    + intros c Hc Hv. destruct (gr_new_vis _ _ _ G c Hc Hv) as [Ho|Hn].
      * by apply (inv_vis_comp _ _ Inv).
      * destruct Hn as (? & ? & ?). by eapply component4_step.
    + intros c Hc Hv. destruct (gr_new_vis _ _ _ G c Hc Hv) as [Ho|Hn].
      * destruct (inv_vis_cases _ _ Inv c Hc Ho) as [Hd|Hs].
        -- left. apply elem_of_cons. by right.
        -- rewrite Hst in Hs. apply elem_of_cons in Hs as [Heq|Hs].
           ++ left. apply elem_of_cons. left.
              apply (pixelIndex_inj width); [apply Hc|done|lia].
           ++ right. by apply (gr_stack _ _ _ G).
      * right. apply Hn.
    + intros c [->|Hc]%elem_of_cons.
      * split_and!.
        -- by split.
        -- by apply (gr_mono _ _ _ G).
        -- intros k Hk. apply writeWhite_lookup_in; [|done].
           rewrite (inv_len_md _ _ Inv), orig_len. lia.
        -- intros d Hn Hd Hm. unfold neighbour4 in Hn.
           destruct d as [dx dy]. cbn [fst snd] in Hn.
           destruct Hd as [Hdx Hdy]; cbn [fst snd] in Hdx, Hdy.
           destruct Hn as [[<- [->| ->]]|[<- [->| ->]]].
           ++ apply (gr_mono _ _ _ G24). apply C1; [|done].
              apply Nat.ltb_lt. lia.
           ++ apply (gr_mono _ _ _ G34).
              replace dx with (S dx - 1) by lia.
              apply C2; [apply Nat.ltb_lt; lia|].
              by replace (S dx - 1) with dx by lia.
           ++ apply (gr_mono _ _ _ G4). apply C3; [|done].
              apply Nat.ltb_lt. lia.
           ++ replace dy with (S dy - 1) by lia.
              apply C4; [apply Nat.ltb_lt; lia|].
              by replace (S dy - 1) with dy by lia.
      * destruct (inv_done _ _ Inv c Hc) as (? & ? & Hw & Hnb).
        split_and!; try done.
        -- by apply (gr_mono _ _ _ G).
        -- intros k Hk. by apply writeWhite_keeps_255, Hw.
        -- intros d ? ? ?. apply (gr_mono _ _ _ G). by apply Hnb.
    + intros c Hc [Hne Hnd]%not_elem_of_cons k Hk.
      rewrite writeWhite_lookup_out; [by apply (inv_rest _ _ Inv)|].
      assert (pixelIndex width c ≠ pixelIndex width (x0, y0)) as Hp.
      { intros Heq. apply Hne. apply (pixelIndex_inj width);
          [apply Hc|done|done]. }
      lia.
    + apply (gr_mono _ _ _ G). apply (inv_seed _ _ Inv).
  - pose proof (gr_measure _ _ _ G) as Hm.
    cbn [stack visited maskData]. unfold s0 in Hm.
    cbn [fst snd length] in Hm |- *. lia.
Qed.

Lemma fillLoop_inv fuel : ∀ done st,
  FillInv done st → fillMeasure st ≤ fuel →
  ∃ done',
    FillInv done' (fillLoop fuel width height srcData startIdx tol st)
    ∧ stack (fillLoop fuel width height srcData startIdx tol st) = [].
Proof.
  induction fuel as [|fuel IH]; intros done st Inv Hm.
  - exists done. split; [done|]. unfold fillMeasure in Hm. cbn [fillLoop].
    destruct (stack st); [done|]. cbn [length] in Hm. lia.
  - cbn [fillLoop]. destruct (stack st) as [|idx rest] eqn:Hst.
    + exists done. by split.
    + destruct (fillStep_inv done st idx rest Inv Hst) as (c0 & Inv' & Hlt).
      apply (IH _ _ Inv'). lia.
Qed.

Definition fillInit : FillState :=
  {| stack := [startIdx];
     visited := <[startIdx / 4 := true]> (replicate (width * height) false);
     maskData := orig |}.

Lemma fillInit_inv : FillInv [] fillInit ∧ fillMeasure fillInit = width * height.
Proof.
  pose proof (pixelIndex_lt _ _ _ seed_in) as Hlt.
  unfold fillInit, startIdx. rewrite byteOffset_div4.
  assert (∀ c, inBounds width height c →
    visitedAt (<[pixelIndex width seed := true]>
                 (replicate (width * height) false)) c → c = seed) as Honly.
  { intros c Hc Hv. unfold visitedAt in Hv.
    destruct (decide (pixelIndex width seed = pixelIndex width c)) as [Heq|Hne].
    - symmetry. apply (pixelIndex_inj width); [apply seed_in|apply Hc|done].
    - rewrite list_lookup_insert_ne in Hv by done.
      apply lookup_replicate in Hv as [? _]. done. }
  split.
  - split; cbn [stack visited maskData].
    + by rewrite length_insert, length_replicate.
    + done.
    + intros idx ->%list_elem_of_singleton. exists seed. split_and!; try done.
      unfold visitedAt. apply list_lookup_insert_eq.
      by rewrite length_replicate.
    + intros c Hc Hv. rewrite (Honly c Hc Hv). constructor.
    + intros c Hc Hv. rewrite (Honly c Hc Hv). right.
      by apply list_elem_of_singleton.
    + intros c Hc. by apply elem_of_nil in Hc.
    + done.
    + unfold visitedAt. apply list_lookup_insert_eq.
      by rewrite length_replicate.
  - unfold fillMeasure. cbn [stack visited length].
    assert (replicate (width * height) false !! pixelIndex width seed
            = Some false) as Hf by (by apply lookup_replicate).
    pose proof (unvisited_insert _ _ Hf) as Hu.
    rewrite unvisited_replicate in Hu. lia.
Qed.

Lemma fillLoop_result :
  let st := fillLoop (width * height) width height srcData startIdx tol
              fillInit in
  stack st = []
  ∧ length (maskData st) = length orig
  ∧ ∀ c, inBounds width height c →
      (component4 width height matches seed c → ∀ k, k < 4 →
         maskData st !! (4 * pixelIndex width c + k) = Some 255%Z)
      ∧ (¬ component4 width height matches seed c → ∀ k, k < 4 →
         maskData st !! (4 * pixelIndex width c + k)
         = orig !! (4 * pixelIndex width c + k))
      ∧ (component4 width height matches seed c
         ∨ ¬ component4 width height matches seed c).
Proof.
  destruct fillInit_inv as [Inv0 Hm0].
  destruct (fillLoop_inv (width * height) [] fillInit Inv0) as
    (done & Inv & Hemp); [lia|].
  cbn zeta. split; [done|]. split; [apply (inv_len_md _ _ Inv)|].
  set (st := fillLoop _ _ _ _ _ _ _) in *.
  assert (∀ c, inBounds width height c → visitedAt (visited st) c →
               c ∈ done) as Hvd.
  { intros c Hc Hv. destruct (inv_vis_cases _ _ Inv c Hc Hv) as [?|Hs];
      [done|]. rewrite Hemp in Hs. by apply elem_of_nil in Hs. }
  assert (∀ c, component4 width height matches seed c → c ∈ done) as Hcd.
  { intros c Hc. induction Hc as [|c d Hc IH Hn Hd Hm].
    - apply Hvd; [done|]. apply (inv_seed _ _ Inv).
    - apply Hvd; [done|].
      destruct (inv_done _ _ Inv c IH) as (_ & _ & _ & Hnb). by apply Hnb. }
  intros c Hc. split_and!.
  - intros Hcomp. by destruct (inv_done _ _ Inv c (Hcd c Hcomp)) as (_&_&?&_).
  - intros Hn. apply (inv_rest _ _ Inv); [done|]. intros Hin.
    apply Hn. destruct (inv_done _ _ Inv c Hin) as (_ & Hv & _).
    by apply (inv_vis_comp _ _ Inv).
  - destruct (decide (c ∈ done)) as [Hin|Hout].
    + left. destruct (inv_done _ _ Inv c Hin) as (_ & Hv & _).
      by apply (inv_vis_comp _ _ Inv).
    + right. intros Hcomp. by apply Hout, Hcd.
Qed.
End FillInvariant.

(** ** Canvas 2D compositing

    The canvas bitmap operations the editor calls ([drawImage],
    [fillRect], [stroke], [fill] under a [globalCompositeOperation]) are
    the Porter-Duff operators applied pixel by pixel; they are written
    here on 8-bit straight-alpha pixels with rounding to the nearest
    integer.  A pixel whose resulting alpha is zero is stored as
    transparent black.

    A canvas keeps its pixels premultiplied by alpha, in 8 bits.  For
    alpha 0 and alpha 255 that form is exact, and the operators below
    give the bytes [getImageData] and [toDataURL] return.  For a pixel
    whose alpha lies strictly in between, a browser returns colour
    channels rounded through the premultiplied form, which these
    definitions do not reproduce: the statements about exported pixels
    are made for source and mask pixels that are opaque or transparent. *)

Inductive CompositeOp :=
  | SourceOver
  | SourceIn
  | DestinationIn
  | DestinationOut.

Definition transparent : RGBA := (0, 0, 0, 0)%Z.

Definition divRound (num den : Z) : Z := ((2 * num + den) / (2 * den))%Z.

Definition composite (op : CompositeOp) (s d : RGBA) : RGBA :=
  let '(sr, sg, sb, sa) := s in
  let '(dr, dg, db, da) := d in
  match op with
  | SourceOver =>
      let n := (255 * sa + da * (255 - sa))%Z in
      let ch := fun cs cd : Z =>
        divRound (cs * (255 * sa) + cd * (da * (255 - sa)))%Z n in
      if (n <=? 0)%Z then transparent
      else (ch sr dr, ch sg dg, ch sb db, divRound n 255)
  | SourceIn =>
      let a := divRound (sa * da) 255 in
      if (a <=? 0)%Z then transparent else (sr, sg, sb, a)
  | DestinationIn =>
      let a := divRound (da * sa) 255 in
      if (a <=? 0)%Z then transparent else (dr, dg, db, a)
  | DestinationOut =>
      let a := divRound (da * (255 - sa)) 255 in
      if (a <=? 0)%Z then transparent else (dr, dg, db, a)
  end.

(** Compositing a source bitmap onto a destination bitmap of the same
    size, both placed at the origin. *)
Fixpoint compositeData (op : CompositeOp) (src dst : list Z) : list Z :=
  match src, dst with
  | sr :: sg :: sb :: sa :: src', dr :: dg :: db :: da :: dst' =>
      let '(r, g, b, a) := composite op (sr, sg, sb, sa) (dr, dg, db, da) in
      r :: g :: b :: a :: compositeData op src' dst'
  | _, _ => dst
  end.

(** A bitmap of [n] pixels of one colour. *)
Fixpoint solid (c : RGBA) (n : nat) : list Z :=
  match n with
  | 0 => []
  | S n' => let '(r, g, b, a) := c in r :: g :: b :: a :: solid c n'
  end.

(** [document.createElement('canvas')] sized [width] x [height]: every
    pixel transparent black. *)
Definition blankData (width height : nat) : list Z :=
  solid transparent (width * height).

(** [ctx.fillRect(0, 0, width, height)] with an opaque [fillStyle]. *)
Definition fillRect (op : CompositeOp) (rgb : Z * Z * Z) (width height : nat)
    (dst : list Z) : list Z :=
  let '(r, g, b) := rgb in
  compositeData op (solid (r, g, b, 255%Z) (width * height)) dst.

(** [ctx.clearRect(0, 0, width, height)]. *)
Definition clearRect (width height : nat) (dst : list Z) : list Z :=
  compositeData DestinationOut (solid (0, 0, 0, 255)%Z (width * height)) dst.

Definition clamp8 (v : Z) : Z := Z.max 0 (Z.min 255 v).

(** The source of a path drawn in white: opaque white weighted by the
    coverage of each pixel. *)
Fixpoint whiteCoverage (cov : list Z) : list Z :=
  match cov with
  | [] => []
  | a :: cov' => 255%Z :: 255%Z :: 255%Z :: clamp8 a :: whiteCoverage cov'
  end.

(** ** Data model (types.ts, as App.tsx and CanvasEditor.tsx use it) *)

Record SegmentationLayer := {
  id : string;
  name : string;
  color : string;
  isVisible : bool;
  isLocked : bool
}.

Inductive ToolType := BRUSH | ERASER | PAN | POLYGON | MAGIC_WAND.

Inductive ExportMode := rgba | visual_mask | training_mask | instance | white_bg.

(** The value of [canvas.toDataURL()]: a PNG, which is lossless, stands
    for the bitmap it encodes; [EmptyURL] is the empty string. *)
Inductive DataURL :=
  | EmptyURL
  | PngURL (data : list Z).

(** A [MaskState] object.  [objectId] is the identity of the JavaScript
    object: React compares state values and effect dependencies with
    [Object.is], so two objects with equal entries are still different
    values. *)
Record MaskState := {
  objectId : nat;
  entries : gmap string DataURL
}.

Record HistoryItem := {
  h_layers : list SegmentationLayer;
  h_masks : MaskState
}.

(** A mask canvas: its bitmap and the [globalCompositeOperation] of its
    2D context, which persists between calls of [getContext('2d')]. *)
Record Canvas := {
  bitmap : list Z;
  globalCompositeOperation : CompositeOp
}.

(** State of the [App] component. *)
Record AppState := {
  imageSrc : bool;                       (* an image has been chosen *)
  layers : list SegmentationLayer;
  activeLayerId : string;
  historyPast : list HistoryItem;
  historyFuture : list HistoryItem;
  currentMasksRef : MaskState;
  restoredMasks : option MaskState;
  tool : ToolType;
  brushSize : float;
  tolerance : float;
  zoom : float
}.

(** State of the [CanvasEditor] component.  The pan offset and the
    cursor position feed only the on-screen rendering and are left out;
    [restoredSeen] is the identity of the [restoredMasks] prop at the last
    run of the restoration effect. *)
Record EditorState := {
  imageRef : option (list Z);
  sourceImageDataRef : option (list Z);
  dimensions : nat * nat;
  maskCanvasesRef : gmap string Canvas;
  isDrawing : bool;
  lastPoint : option Point;
  isPanning : bool;
  polyPoints : list Point;
  restoredSeen : option nat
}.

Record System := {
  app : AppState;
  editor : EditorState;
  nextObject : nat                       (* next fresh object identity *)
}.

(** *** Field updates *)

Definition app_with_history (past future : list HistoryItem) (a : AppState)
    : AppState :=
  {| imageSrc := imageSrc a; layers := layers a;
     activeLayerId := activeLayerId a;
     historyPast := past; historyFuture := future;
     currentMasksRef := currentMasksRef a; restoredMasks := restoredMasks a;
     tool := tool a; brushSize := brushSize a; tolerance := tolerance a;
     zoom := zoom a |}.

Definition app_with_layers (ls : list SegmentationLayer) (a : AppState)
    : AppState :=
  {| imageSrc := imageSrc a; layers := ls;
     activeLayerId := activeLayerId a;
     historyPast := historyPast a; historyFuture := historyFuture a;
     currentMasksRef := currentMasksRef a; restoredMasks := restoredMasks a;
     tool := tool a; brushSize := brushSize a; tolerance := tolerance a;
     zoom := zoom a |}.

Definition app_with_active (i : string) (a : AppState) : AppState :=
  {| imageSrc := imageSrc a; layers := layers a;
     activeLayerId := i;
     historyPast := historyPast a; historyFuture := historyFuture a;
     currentMasksRef := currentMasksRef a; restoredMasks := restoredMasks a;
     tool := tool a; brushSize := brushSize a; tolerance := tolerance a;
     zoom := zoom a |}.

Definition app_with_masks (m : MaskState) (a : AppState) : AppState :=
  {| imageSrc := imageSrc a; layers := layers a;
     activeLayerId := activeLayerId a;
     historyPast := historyPast a; historyFuture := historyFuture a;
     currentMasksRef := m; restoredMasks := restoredMasks a;
     tool := tool a; brushSize := brushSize a; tolerance := tolerance a;
     zoom := zoom a |}.

Definition app_with_restored (m : option MaskState) (a : AppState)
    : AppState :=
  {| imageSrc := imageSrc a; layers := layers a;
     activeLayerId := activeLayerId a;
     historyPast := historyPast a; historyFuture := historyFuture a;
     currentMasksRef := currentMasksRef a; restoredMasks := m;
     tool := tool a; brushSize := brushSize a; tolerance := tolerance a;
     zoom := zoom a |}.

Definition app_with_tool (t : ToolType) (a : AppState) : AppState :=
  {| imageSrc := imageSrc a; layers := layers a;
     activeLayerId := activeLayerId a;
     historyPast := historyPast a; historyFuture := historyFuture a;
     currentMasksRef := currentMasksRef a; restoredMasks := restoredMasks a;
     tool := t; brushSize := brushSize a; tolerance := tolerance a;
     zoom := zoom a |}.

Definition editor_with_canvases (m : gmap string Canvas) (e : EditorState)
    : EditorState :=
  {| imageRef := imageRef e; sourceImageDataRef := sourceImageDataRef e;
     dimensions := dimensions e; maskCanvasesRef := m;
     isDrawing := isDrawing e; lastPoint := lastPoint e;
     isPanning := isPanning e; polyPoints := polyPoints e;
     restoredSeen := restoredSeen e |}.

Definition editor_with_pointer (drawing : bool) (lp : option Point)
    (panning : bool) (e : EditorState) : EditorState :=
  {| imageRef := imageRef e; sourceImageDataRef := sourceImageDataRef e;
     dimensions := dimensions e; maskCanvasesRef := maskCanvasesRef e;
     isDrawing := drawing; lastPoint := lp;
     isPanning := panning; polyPoints := polyPoints e;
     restoredSeen := restoredSeen e |}.

Definition editor_with_polyPoints (pts : list Point) (e : EditorState)
    : EditorState :=
  {| imageRef := imageRef e; sourceImageDataRef := sourceImageDataRef e;
     dimensions := dimensions e; maskCanvasesRef := maskCanvasesRef e;
     isDrawing := isDrawing e; lastPoint := lastPoint e;
     isPanning := isPanning e; polyPoints := pts;
     restoredSeen := restoredSeen e |}.

Definition editor_with_seen (seen : option nat) (e : EditorState)
    : EditorState :=
  {| imageRef := imageRef e; sourceImageDataRef := sourceImageDataRef e;
     dimensions := dimensions e; maskCanvasesRef := maskCanvasesRef e;
     isDrawing := isDrawing e; lastPoint := lastPoint e;
     isPanning := isPanning e; polyPoints := polyPoints e;
     restoredSeen := seen |}.

Definition with_app (a : AppState) (s : System) : System :=
  {| app := a; editor := editor s; nextObject := nextObject s |}.

Definition with_editor (e : EditorState) (s : System) : System :=
  {| app := app s; editor := e; nextObject := nextObject s |}.

(** ** History (App.tsx) *)

Definition pushToHistory (newLayers : list SegmentationLayer)
    (newMasks : MaskState) (a : AppState) : AppState :=
  app_with_history
    (historyPast a ++ [{| h_layers := newLayers; h_masks := newMasks |}])
    [] a.

Definition handleSnapshot (newMasks : MaskState) (a : AppState) : AppState :=
  app_with_masks newMasks (pushToHistory (layers a) (currentMasksRef a) a).

Definition hasLayer (i : string) (ls : list SegmentationLayer) : bool :=
  bool_decide (Exists (λ l, id l = i) ls).

(** [ls[0]?.id || 'fg'] *)
Definition firstIdOrFg (ls : list SegmentationLayer) : string :=
  match ls with
  | [] => "fg"
  | l :: _ => if decide (id l = "") then "fg" else id l
  end.

Definition restoreItem (item : HistoryItem) (a : AppState) : AppState :=
  let a1 := app_with_layers (h_layers item) a in
  let a2 := app_with_masks (h_masks item) a1 in
  app_with_restored (Some (h_masks item)) a2.

(** The fallback test reads [activeLayerId] from the closure of the
    handler: [seenActive] is the id that closure saw. *)
Definition fallbackActive (seenActive : string) (item : HistoryItem)
    (a : AppState) : AppState :=
  if hasLayer seenActive (h_layers item) then a
  else app_with_active (firstIdOrFg (h_layers item)) a.

(** The layers and masks [App] holds. *)
Definition currentItem (a : AppState) : HistoryItem :=
  {| h_layers := layers a; h_masks := currentMasksRef a |}.

(** [handleUndo], as the closure of a render in which [activeLayerId] was
    [seenActive].  The entry that goes to [future] is built by the updater
    passed to [setHistoryFuture] (line 123).  React runs that updater
    when it processes the update queue, after the handler has returned:
    [layers] is the constant of the closure, and [currentMasksRef.current]
    is read after line 127 has reassigned it, so the entry holds the
    masks object of the popped entry, not the one [App] held before. *)
Definition handleUndoSeen (seenActive : string) (a : AppState) : AppState :=
  match last (historyPast a) with
  | None => a
  | Some previousState =>
      let newPast := take (length (historyPast a) - 1) (historyPast a) in
      let pushed :=
        {| h_layers := layers a; h_masks := h_masks previousState |} in
      let a1 := app_with_history newPast (pushed :: historyFuture a) a in
      fallbackActive seenActive previousState (restoreItem previousState a1)
  end.

(** [handleRedo], likewise: the updater passed to [setHistoryPast]
    (line 144) reads [currentMasksRef.current] after line 148 has
    reassigned it. *)
Definition handleRedoSeen (seenActive : string) (a : AppState) : AppState :=
  match historyFuture a with
  | [] => a
  | nextState :: newFuture =>
      let pushed :=
        {| h_layers := layers a; h_masks := h_masks nextState |} in
      let a1 := app_with_history (historyPast a ++ [pushed]) newFuture a in
      fallbackActive seenActive nextState (restoreItem nextState a1)
  end.

(** The Undo and Redo buttons call the handlers of the latest render,
    whose closure holds the current [activeLayerId]. *)
Definition handleUndo (a : AppState) : AppState :=
  handleUndoSeen (activeLayerId a) a.

Definition handleRedo (a : AppState) : AppState :=
  handleRedoSeen (activeLayerId a) a.

(** A key press, as the listener of [App] reads it. *)
Record KeyboardEvent := {
  ctrlKey : bool;
  metaKey : bool;
  shiftKey : bool;
  key : string
}.

(** The keydown listener of [App] (lines 63-79).  It is registered again
    only when [historyPast], [historyFuture] or [layers] change, so the
    handlers it calls are those of the last render in which one of these
    changed: they hold the current history and layers, and the
    [activeLayerId] of that render, [seenActive], which a click on a
    layer may since have changed. *)
Definition handleKeyDown (seenActive : string) (e : KeyboardEvent)
    (a : AppState) : AppState :=
  if (ctrlKey e || metaKey e) && bool_decide (key e = "z")
  then if shiftKey e then handleRedoSeen seenActive a
       else handleUndoSeen seenActive a
  else if (ctrlKey e || metaKey e) && bool_decide (key e = "y")
  then handleRedoSeen seenActive a
  else a.

Record LayerUpdates := {
  upd_name : option string;
  upd_color : option string;
  upd_isVisible : option bool;
  upd_isLocked : option bool
}.

(** [{ ...l, ...updates }] *)
Definition applyUpdates (updates : LayerUpdates) (l : SegmentationLayer)
    : SegmentationLayer :=
  {| id := id l;
     name := default (name l) (upd_name updates);
     color := default (color l) (upd_color updates);
     isVisible := default (isVisible l) (upd_isVisible updates);
     isLocked := default (isLocked l) (upd_isLocked updates) |}.

Definition updateLayer (i : string) (updates : LayerUpdates) (a : AppState)
    : AppState :=
  let a1 := pushToHistory (layers a) (currentMasksRef a) a in
  app_with_layers
    ((λ l, if decide (id l = i) then applyUpdates updates l else l)
       <$> layers a1) a1.

Definition removeLayer (i : string) (a : AppState) : AppState :=
  if length (layers a) <=? 1 then a
  else
    let a1 := pushToHistory (layers a) (currentMasksRef a) a in
    let a2 := app_with_layers (filter (λ l, id l ≠ i) (layers a1)) a1 in
    if decide (activeLayerId a = i)
    then app_with_active
           (match layers a with l0 :: _ => id l0 | [] => activeLayerId a end)
           a2
    else a2.

Definition toggleVisibility (i : string) (a : AppState) : AppState :=
  let a1 := pushToHistory (layers a) (currentMasksRef a) a in
  app_with_layers
    ((λ l, if decide (id l = i)
           then {| id := id l; name := name l; color := color l;
                   isVisible := negb (isVisible l); isLocked := isLocked l |}
           else l) <$> layers a1) a1.

Section Platform.

(** What the browser and the rest of the repository supply: the
    rasteriser of a round-capped line of a given width and of a closed
    polygon (coverage per pixel, 0 to 255, row-major), the colour table
    [PREDEFINED_COLORS] of types.ts and the parser of a CSS colour. *)
Variable strokeCoverage : nat → nat → float → Point → Point → list Z.
Variable fillCoverage : nat → nat → list Point → list Z.
Variable PREDEFINED_COLORS : list string.
Variable parseColor : string → Z * Z * Z.

Definition colorAt (n : nat) : string :=
  default "" (PREDEFINED_COLORS !! (n mod length PREDEFINED_COLORS)).

(** [now] is the decimal rendering of [Date.now()]. *)
Definition addLayer (newName : string) (now : string) (a : AppState)
    : AppState :=
  let a1 := pushToHistory (layers a) (currentMasksRef a) a in
  let newId := "inst-" +:+ now in
  let newColor := colorAt (length (layers a)) in
  app_with_active newId
    (app_with_layers
       (layers a1 ++ [{| id := newId; name := newName; color := newColor;
                         isVisible := true; isLocked := false |}]) a1).

(** [runAIDetection] is asynchronous: it pushes onto the history, awaits
    [detectObjectsInImage], and only then changes the registry; any other
    handler can run in between.  It is modelled as its two halves.

    Up to the [await]: the guard on [imageSrc] and the push. *)
Definition runAIDetectionStart (a : AppState) : AppState :=
  if negb (imageSrc a) then a
  else pushToHistory (layers a) (currentMasksRef a) a.

(** After the [await], once [detectObjectsInImage] has resolved to
    [labels] (when it fails nothing more happens to the state).
    [seenLength] is [layers.length] in the closure of the click, which
    picks the colours; [now idx] is the rendering of the [Date.now()]
    read for label [idx]; the updater of [setLayers] merges into the
    registry as it is when the promise resolves. *)
Definition runAIDetectionResolved (seenLength : nat) (labels : list string)
    (now : nat → string) (a : AppState) : AppState :=
  match labels with
  | [] => a
  | _ :: _ =>
      let newLayers :=
        imap (λ idx label,
                {| id := "ai-" +:+ pretty idx +:+ "-" +:+ now idx;
                   name := label;
                   color := colorAt (seenLength + idx);
                   isVisible := true; isLocked := false |}) labels in
      let merged :=
        match layers a with
        | [l] => if decide (id l = "fg") then newLayers
                 else layers a ++ newLayers
        | prev => prev ++ newLayers
        end in
      let a2 := app_with_layers merged a in
      match newLayers with
      | l0 :: _ => app_with_active (id l0) a2
      | [] => a2
      end
  end.

(** ** The mask store (CanvasEditor.tsx) *)

Definition blankCanvas (width height : nat) : Canvas :=
  {| bitmap := blankData width height;
     globalCompositeOperation := SourceOver |}.

(** [!snapshot[l.id]] *)
Definition noData (o : option DataURL) : bool :=
  match o with
  | None | Some EmptyURL => true
  | Some (PngURL _) => false
  end.

Definition snapshotOf (canvases : gmap string Canvas)
    (ls : list SegmentationLayer) (width : nat) : gmap string DataURL :=
  foldl (λ snapshot l,
           if noData (snapshot !! id l) && (0 <? width)
           then <[id l := EmptyURL]> snapshot else snapshot)
        ((λ c, PngURL (bitmap c)) <$> canvases) ls.

Definition captureSnapshot (s : System) : System :=
  let snapshot :=
    {| objectId := nextObject s;
       entries := snapshotOf (maskCanvasesRef (editor s)) (layers (app s))
                    (dimensions (editor s)).1 |} in
  {| app := handleSnapshot snapshot (app s);
     editor := editor s;
     nextObject := S (nextObject s) |}.

(** "Ensure masks exist for all layers" *)
Definition ensureMasks (ls : list SegmentationLayer) (e : EditorState)
    : gmap string Canvas :=
  if (dimensions e).1 =? 0 then maskCanvasesRef e
  else
    foldl (λ m l,
             match m !! id l with
             | Some _ => m
             | None => <[id l := blankCanvas (dimensions e).1 (dimensions e).2]> m
             end)
          (maskCanvasesRef e) ls.

(** "Handle Restoration": every canvas is cleared, then each entry that
    holds data is drawn onto its canvas (created when missing) under that
    canvas' current composite operation.  Each entry touches the canvas
    of its own key only; decoding the image is taken as immediate. *)
Definition restoreCanvas (width height : nat) (entry : option DataURL)
    (canvas : option Canvas) : option Canvas :=
  match entry with
  | Some (PngURL img) =>
      let c := default (blankCanvas width height) canvas in
      Some {| bitmap :=
                compositeData (globalCompositeOperation c) img (bitmap c);
              globalCompositeOperation := globalCompositeOperation c |}
  | _ => canvas
  end.

Definition restoreStore (width height : nat) (restored : MaskState)
    (m : gmap string Canvas) : gmap string Canvas :=
  merge (restoreCanvas width height) (entries restored)
    ((λ c, {| bitmap := clearRect width height (bitmap c);
              globalCompositeOperation := globalCompositeOperation c |})
       <$> m).

(** The effects of [CanvasEditor] that run after [App] has rendered:
    the restoration effect runs only when the [restoredMasks] prop is a
    different object than at its last run. *)
Definition commitRender (s : System) : System :=
  let e := editor s in
  let e1 := editor_with_canvases (ensureMasks (layers (app s)) e) e in
  let seen := objectId <$> restoredMasks (app s) in
  if decide (seen = restoredSeen e1) then with_editor e1 s
  else
    let m :=
      match restoredMasks (app s) with
      | Some restored =>
          if (0 <? (dimensions e1).1) && (0 <? (dimensions e1).2)
          then restoreStore (dimensions e1).1 (dimensions e1).2 restored
                 (maskCanvasesRef e1)
          else maskCanvasesRef e1
      | None => maskCanvasesRef e1
      end in
    with_editor (editor_with_seen seen (editor_with_canvases m e1)) s.

(** A handler of [App] that sets state, followed by the render it
    triggers.  A handler that returns before setting any state triggers
    no render. *)
Definition appStep (f : AppState → AppState) (s : System) : System :=
  commitRender (with_app (f (app s)) s).

Definition undo (s : System) : System :=
  match historyPast (app s) with
  | [] => s
  | _ :: _ => appStep handleUndo s
  end.

Definition redo (s : System) : System :=
  match historyFuture (app s) with
  | [] => s
  | _ :: _ => appStep handleRedo s
  end.

Definition removeLayerStep (i : string) (s : System) : System :=
  if length (layers (app s)) <=? 1 then s else appStep (removeLayer i) s.

Definition selectTool (t : ToolType) (s : System) : System :=
  with_app (app_with_tool t (app s)) s.

Definition setCanvas (i : string) (c : Canvas) (s : System) : System :=
  with_editor
    (editor_with_canvases (<[i := c]> (maskCanvasesRef (editor s))) (editor s))
    s.

(** [draw(start, end)]: one stroke segment into the active mask.  The
    eraser leaves the context in 'destination-out', the brush in
    'source-over'. *)
Definition draw (start finish : Point) (s : System) : System :=
  match maskCanvasesRef (editor s) !! activeLayerId (app s) with
  | None => s
  | Some maskCanvas =>
      let op := match tool (app s) with
                | ERASER => DestinationOut
                | _ => SourceOver
                end in
      let '(width, height) := dimensions (editor s) in
      let path :=
        whiteCoverage
          (strokeCoverage width height (brushSize (app s)) start finish) in
      setCanvas (activeLayerId (app s))
        {| bitmap := compositeData op path (bitmap maskCanvas);
           globalCompositeOperation := op |} s
  end.

(** [commitPolygon]: the fill uses whatever composite operation the
    context of the active mask is in. *)
Definition commitPolygon (s : System) : System :=
  if length (polyPoints (editor s)) <? 3
  then with_editor (editor_with_polyPoints [] (editor s)) s
  else
    match maskCanvasesRef (editor s) !! activeLayerId (app s) with
    | None => s
    | Some maskCanvas =>
        let '(width, height) := dimensions (editor s) in
        let path :=
          whiteCoverage (fillCoverage width height (polyPoints (editor s))) in
        let s1 :=
          setCanvas (activeLayerId (app s))
            {| bitmap :=
                 compositeData (globalCompositeOperation maskCanvas) path
                   (bitmap maskCanvas);
               globalCompositeOperation :=
                 globalCompositeOperation maskCanvas |} s in
        captureSnapshot
          (with_editor (editor_with_polyPoints [] (editor s1)) s1)
    end.

(** The Escape key while the polygon tool is selected. *)
Definition cancelPolygon (s : System) : System :=
  with_editor (editor_with_polyPoints [] (editor s)) s.

(** [performFloodFill(startX, startY)].  [getImageData] and
    [putImageData] move the bytes of the whole mask unchanged.  With a
    NaN coordinate no bounds test fires and no array offset is an index:
    nothing is written, and the snapshot is still taken. *)
Definition performFloodFill (startX startY : float) (s : System) : System :=
  match sourceImageDataRef (editor s) with
  | None => s
  | Some srcData =>
      let '(width, height) := dimensions (editor s) in
      let fx := Math_floor startX in
      let fy := Math_floor startY in
      if outside fx width || outside fy height then s
      else
        match maskCanvasesRef (editor s) !! activeLayerId (app s) with
        | None => s
        | Some maskCanvas =>
            match fx, fy with
            | JFin zx, JFin zy =>
                let filled :=
                  floodFillData width height srcData
                    (colorTol (tolerance (app s)))
                    (Z.to_nat zx) (Z.to_nat zy) (bitmap maskCanvas) in
                captureSnapshot
                  (setCanvas (activeLayerId (app s))
                     {| bitmap := filled;
                        globalCompositeOperation :=
                          globalCompositeOperation maskCanvas |} s)
            | _, _ => captureSnapshot s
            end
        end
  end.

(** [Math.sqrt(Math.pow(a.x - b.x, 2) + Math.pow(a.y - b.y, 2))] *)
Definition distance (a b : Point) : float :=
  PrimFloat.sqrt ((px a - px b) * (px a - px b)
                  + (py a - py b) * (py a - py b))%float.

(** The test that closes a polygon: more than two vertices and the click
    less than [10 / zoom] away from the first one. *)
Definition closesPolygon (pts : list Point) (zoomFactor : float) (pos : Point)
    : bool :=
  match pts with
  | start :: _ =>
      (2 <? length pts)
      && PrimFloat.ltb (distance start pos) (10 / zoomFactor)%float
  | [] => false
  end.

(** [handlePointerDown]; [pos] is the pointer position in image space
    ([getPointerPos]). *)
Definition handlePointerDown (pos : Point) (s : System) : System :=
  match tool (app s) with
  | PAN =>
      with_editor
        (editor_with_pointer (isDrawing (editor s)) (lastPoint (editor s))
           true (editor s)) s
  | MAGIC_WAND => performFloodFill (px pos) (py pos) s
  | POLYGON =>
      if closesPolygon (polyPoints (editor s)) (zoom (app s)) pos
      then commitPolygon s
      else with_editor
             (editor_with_polyPoints (polyPoints (editor s) ++ [pos])
                (editor s)) s
  | BRUSH | ERASER =>
      draw pos pos
        (with_editor
           (editor_with_pointer true (Some pos) (isPanning (editor s))
              (editor s)) s)
  end.

Definition handlePointerMove (pos : Point) (s : System) : System :=
  if isPanning (editor s) then s
  else
    match tool (app s) with
    | POLYGON => s
    | _ =>
        match isDrawing (editor s), lastPoint (editor s) with
        | true, Some lp =>
            let s1 := draw lp pos s in
            with_editor
              (editor_with_pointer (isDrawing (editor s1)) (Some pos)
                 (isPanning (editor s1)) (editor s1)) s1
        | _, _ => s
        end
    end.

Definition handlePointerUp (s : System) : System :=
  match tool (app s) with
  | POLYGON | MAGIC_WAND => s
  | _ =>
      let s1 := if isDrawing (editor s) then captureSnapshot s else s in
      with_editor (editor_with_pointer false None false (editor s1)) s1
  end.

(** A whole stroke: press at [p0], drag through [moves], release. *)
Definition stroke (p0 : Point) (moves : list Point) (s : System) : System :=
  handlePointerUp
    (foldl (λ acc p, handlePointerMove p acc) (handlePointerDown p0 s) moves).

(** ** Export (processExport) *)

Definition maskBitmap (s : System) (i : string) : option (list Z) :=
  bitmap <$> maskCanvasesRef (editor s) !! i.

(** [getCompositeMask]: the visible masks drawn one over the other. *)
Definition getCompositeMask (s : System) : list Z :=
  let '(width, height) := dimensions (editor s) in
  foldl (λ mCtx layer,
           if isVisible layer
           then match maskBitmap s (id layer) with
                | Some lMask => compositeData SourceOver lMask mCtx
                | None => mCtx
                end
           else mCtx)
        (blankData width height) (layers (app s)).

(** A mask filled with one colour: [drawImage(lMask)] on a fresh canvas,
    then [fillRect] under 'source-in'. *)
Definition tinted (width height : nat) (rgb : Z * Z * Z) (lMask : list Z)
    : list Z :=
  fillRect SourceIn rgb width height
    (compositeData SourceOver lMask (blankData width height)).

(** The colour [rgb(id, id, id)]: CSS clamps a channel to 255. *)
Definition labelColor (index : nat) : Z * Z * Z :=
  let v := Z.min 255 (Z.of_nat (index + 1)) in (v, v, v).

Fixpoint paintLabels (s : System) (width height : nat) (index : nat)
    (ls : list SegmentationLayer) (ctx : list Z) : list Z :=
  match ls with
  | [] => ctx
  | layer :: ls' =>
      let ctx' :=
        if isVisible layer
        then match maskBitmap s (id layer) with
             | Some lMask =>
                 compositeData SourceOver
                   (tinted width height (labelColor index) lMask) ctx
             | None => ctx
             end
        else ctx in
      paintLabels s width height (S index) ls' ctx'
  end.

Definition paintColors (s : System) (width height : nat)
    (ls : list SegmentationLayer) (ctx : list Z) : list Z :=
  foldl (λ acc layer,
           if isVisible layer
           then match maskBitmap s (id layer) with
                | Some lMask =>
                    compositeData SourceOver
                      (tinted width height (parseColor (color layer)) lMask)
                      acc
                | None => acc
                end
           else acc) ctx ls.

(** The bitmap handed to [onExportComplete], if any. *)
Definition processExport (exportMode : ExportMode) (s : System)
    : option (list Z) :=
  match imageRef (editor s) with
  | None => None
  | Some img =>
      let '(width, height) := dimensions (editor s) in
      if width =? 0 then None
      else
        let blank := blankData width height in
        match exportMode with
        | white_bg =>
            let ctx := fillRect SourceOver (255, 255, 255)%Z width height blank in
            let cutout :=
              compositeData DestinationIn (getCompositeMask s)
                (compositeData SourceOver img blank) in
            Some (compositeData SourceOver cutout ctx)
        | rgba =>
            Some (compositeData DestinationIn (getCompositeMask s)
                    (compositeData SourceOver img blank))
        | instance =>
            let ctx := compositeData SourceOver img blank in
            let maskComposite :=
              match maskBitmap s (activeLayerId (app s)) with
              | Some activeMask =>
                  let m := compositeData SourceOver activeMask blank in
                  match maskBitmap s "fg" with
                  | Some fgMask =>
                      if decide (activeLayerId (app s) ≠ "fg")
                      then compositeData DestinationIn fgMask m
                      else m
                  | None => m
                  end
              | None => blank
              end in
            Some (compositeData DestinationIn maskComposite ctx)
        | training_mask =>
            let ctx0 := fillRect SourceOver (0, 0, 0)%Z width height blank in
            let ctx1 := paintLabels s width height 0 (layers (app s)) ctx0 in
            let ctx2 := compositeData DestinationIn img ctx1 in
            Some (compositeData SourceOver ctx2
                    (fillRect SourceOver (0, 0, 0)%Z width height blank))
        | visual_mask =>
            let ctx1 := paintColors s width height (layers (app s)) blank in
            Some (compositeData DestinationIn img ctx1)
        end
  end.

(** ** Session start *)

Definition initialLayers : list SegmentationLayer :=
  [{| id := "fg"; name := "Foreground"; color := "#ef4444";
      isVisible := true; isLocked := false |}].

(** The state of a new [App]. *)
Definition initialSystem : System :=
  {| app :=
       {| imageSrc := false; layers := initialLayers; activeLayerId := "fg";
          historyPast := []; historyFuture := [];
          currentMasksRef := {| objectId := 0; entries := ∅ |};
          restoredMasks := None;
          tool := BRUSH; brushSize := 20; tolerance := 30; zoom := 1 |};
     editor :=
       {| imageRef := None; sourceImageDataRef := None; dimensions := (0, 0);
          maskCanvasesRef := ∅; isDrawing := false; lastPoint := None;
          isPanning := false; polyPoints := []; restoredSeen := None |};
     nextObject := 1 |}.

(** [handleImageUpload] and the [onload] of the image it selects:
    [pixels] are the decoded pixels of a [width] x [height] image and
    [imageData] is what [getImageData] returned after the image was drawn
    on a canvas of its size, [None] when it threw (a cross-origin image).
    The canvas keeps premultiplied colour, so for a pixel that is neither
    opaque nor transparent the samples returned may differ from [pixels]
    by the rounding of the browser. *)
Definition handleImageUpload (width height : nat) (pixels : list Z)
    (imageData : option (list Z)) (s : System) : System :=
  let a := app s in
  let n := nextObject s in
  let restored := {| objectId := S n; entries := ∅ |} in
  let a' :=
    {| imageSrc := true; layers := initialLayers; activeLayerId := "fg";
       historyPast := []; historyFuture := [];
       currentMasksRef := {| objectId := n; entries := ∅ |};
       restoredMasks := Some restored;
       tool := tool a; brushSize := brushSize a; tolerance := tolerance a;
       zoom := 1 |} in
  let canvases : gmap string Canvas :=
    foldl (λ m l, <[id l := blankCanvas width height]> m) ∅ initialLayers in
  let e' :=
    {| imageRef := Some pixels;
       sourceImageDataRef := imageData;
       dimensions := (width, height);
       maskCanvasesRef := canvases;
       isDrawing := isDrawing (editor s); lastPoint := lastPoint (editor s);
       isPanning := isPanning (editor s); polyPoints := [];
       restoredSeen := restoredSeen (editor s) |} in
  commitRender {| app := a'; editor := e'; nextObject := S (S n) |}.

End Platform.

(** ** Pixels of composited bitmaps *)

Lemma pixelAt_cons4 (a b c d : Z) l p :
  pixelAt (a :: b :: c :: d :: l) (S p) = pixelAt l p.
Proof.
  unfold pixelAt.
  replace (4 * S p) with (S (S (S (S (4 * p))))) by lia.
  replace (S (S (S (S (4 * p)))) + 1) with (S (S (S (S (4 * p + 1))))) by lia.
  replace (S (S (S (S (4 * p)))) + 2) with (S (S (S (S (4 * p + 2))))) by lia.
  replace (S (S (S (S (4 * p)))) + 3) with (S (S (S (S (4 * p + 3))))) by lia.
  done.
Qed.

Lemma pixelAt_cons4_0 (a b c d : Z) l :
  pixelAt (a :: b :: c :: d :: l) 0 = Some (a, b, c, d).
Proof. done. Qed.

Lemma pixelAt_None data p : length data ≤ 4 * p + 3 → pixelAt data p = None.
Proof.
  intros Hlen. unfold pixelAt.
  destruct (data !! (4 * p)) as [r|]; [|done]. cbn -[Nat.mul Nat.add].
  destruct (data !! (4 * p + 1)) as [g|]; [|done]. cbn -[Nat.mul Nat.add].
  destruct (data !! (4 * p + 2)) as [b|]; [|done]. cbn -[Nat.mul Nat.add].
  by rewrite (lookup_ge_None_2 data (4 * p + 3)) by lia.
Qed.

Lemma pixelAt_Some data p : 4 * p + 3 < length data → is_Some (pixelAt data p).
Proof.
  intros Hlen. unfold pixelAt.
  destruct (lookup_lt_is_Some_2 data (4 * p)) as [r ->]; [lia|].
  destruct (lookup_lt_is_Some_2 data (4 * p + 1)) as [g ->]; [lia|].
  destruct (lookup_lt_is_Some_2 data (4 * p + 2)) as [b ->]; [lia|].
  destruct (lookup_lt_is_Some_2 data (4 * p + 3)) as [a ->]; [lia|].
  by eexists.
Qed.

Lemma pixelAt_bytes data p r g b a :
  pixelAt data p = Some (r, g, b, a) ↔
  data !! (4 * p) = Some r ∧ data !! (4 * p + 1) = Some g
  ∧ data !! (4 * p + 2) = Some b ∧ data !! (4 * p + 3) = Some a.
Proof.
  unfold pixelAt.
  destruct (data !! (4 * p)) as [r'|]; cbn -[Nat.mul Nat.add];
    [|split; [done|by intros [? _]]].
  destruct (data !! (4 * p + 1)) as [g'|]; cbn -[Nat.mul Nat.add];
    [|split; [done|by intros (_ & ? & _)]].
  destruct (data !! (4 * p + 2)) as [b'|]; cbn -[Nat.mul Nat.add];
    [|split; [done|by intros (_ & _ & ? & _)]].
  destruct (data !! (4 * p + 3)) as [a'|]; cbn -[Nat.mul Nat.add];
    [|split; [done|by intros (_ & _ & _ & ?)]].
  split; [by intros [= -> -> -> ->]|by intros ([= ->] & [= ->] & [= ->] & [= ->])].
Qed.

Lemma length_compositeData op src dst :
  length (compositeData op src dst) = length dst.
Proof.
  remember (length src) as n eqn:Hn. revert src dst Hn.
  induction (lt_wf n) as [n _ IH]. intros src dst ->.
  destruct src as [|sr [|sg [|sb [|sa src]]]]; try done.
  destruct dst as [|dr [|dg [|db [|da dst]]]]; try done.
  cbn [compositeData].
  destruct (composite op (sr, sg, sb, sa) (dr, dg, db, da)) as [[[r g] b] a].
  cbn [length]. do 4 f_equal. eapply IH; [|done]. cbn [length]. lia.
Qed.

Lemma pixelAt_short (data : list Z) p : length data < 4 → pixelAt data p = None.
Proof. intros Hlen. apply pixelAt_None. lia. Qed.

Lemma compositeData_short_src op src dst :
  length src < 4 → compositeData op src dst = dst.
Proof.
  intros Hlen. destruct src as [|sr [|sg [|sb [|sa src]]]]; try done.
  cbn [length] in Hlen. lia.
Qed.

Lemma compositeData_short_dst op src dst :
  length dst < 4 → compositeData op src dst = dst.
Proof.
  intros Hlen. destruct src as [|sr [|sg [|sb [|sa src]]]]; try done.
  destruct dst as [|dr [|dg [|db [|da dst]]]]; try done.
  cbn [length] in Hlen. lia.
Qed.

Lemma pixelAt_compositeData op p : ∀ src dst,
  pixelAt (compositeData op src dst) p
  = match pixelAt src p, pixelAt dst p with
    | Some s, Some d => Some (composite op s d)
    | _, _ => pixelAt dst p
    end.
Proof.
  induction p as [|p IH]; intros src dst.
  - destruct (decide (length src < 4)) as [Hs|Hs].
    { by rewrite compositeData_short_src, (pixelAt_short src). }
    destruct (decide (length dst < 4)) as [Hd|Hd].
    { rewrite compositeData_short_dst, (pixelAt_short dst) by done.
      by destruct (pixelAt src 0). }
    destruct src as [|sr [|sg [|sb [|sa src]]]];
      try (cbn [length] in Hs; lia).
    destruct dst as [|dr [|dg [|db [|da dst]]]];
      try (cbn [length] in Hd; lia).
    cbn [compositeData]. rewrite !pixelAt_cons4_0.
    by destruct (composite op (sr, sg, sb, sa) (dr, dg, db, da))
      as [[[r g] b] a].
  - destruct (decide (length src < 4)) as [Hs|Hs].
    { by rewrite compositeData_short_src, (pixelAt_short src). }
    destruct (decide (length dst < 4)) as [Hd|Hd].
    { rewrite compositeData_short_dst, (pixelAt_short dst) by done.
      by destruct (pixelAt src (S p)). }
    destruct src as [|sr [|sg [|sb [|sa src]]]];
      try (cbn [length] in Hs; lia).
    destruct dst as [|dr [|dg [|db [|da dst]]]];
      try (cbn [length] in Hd; lia).
    cbn [compositeData].
    destruct (composite op (sr, sg, sb, sa) (dr, dg, db, da))
      as [[[r g] b] a].
    rewrite !pixelAt_cons4. apply IH.
Qed.

Lemma length_solid c n : length (solid c n) = 4 * n.
Proof.
  induction n as [|n IH]; [done|]. destruct c as [[[r g] b] a].
  cbn [solid length]. rewrite IH. lia.
Qed.

Lemma pixelAt_solid c n p : p < n → pixelAt (solid c n) p = Some c.
Proof.
  revert p. induction n as [|n IH]; intros p Hp; [lia|].
  destruct c as [[[r g] b] a]. cbn [solid]. destruct p as [|p].
  - apply pixelAt_cons4_0.
  - rewrite pixelAt_cons4. apply (IH p). lia.
Qed.

Lemma length_blankData width height :
  length (blankData width height) = 4 * (width * height).
Proof. apply length_solid. Qed.

Lemma pixelAt_blankData width height p :
  p < width * height → pixelAt (blankData width height) p = Some transparent.
Proof. apply pixelAt_solid. Qed.

(** ** Pixel arithmetic *)

Lemma divRound_exact q den : (0 < den)%Z → divRound (q * den) den = q.
Proof.
  intros Hden. unfold divRound.
  replace (2 * (q * den) + den)%Z with (den + q * (2 * den))%Z by lia.
  rewrite Z.div_add by lia. rewrite Z.div_small by lia. lia.
Qed.

Lemma divRound_range x y :
  (0 ≤ x ≤ 255)%Z → (0 ≤ y ≤ 255)%Z → (0 ≤ divRound (x * y) 255 ≤ 255)%Z.
Proof.
  intros Hx Hy. unfold divRound. split.
  - apply Z.div_pos; nia.
  - enough ((2 * (x * y) + 255) / (2 * 255) < 256)%Z by lia.
    apply Z.div_lt_upper_bound; nia.
Qed.

(** A stored pixel: alpha in range, and no colour left where alpha is 0. *)
Definition canonicalPixel (c : RGBA) : Prop :=
  let '(r, g, b, a) := c in
  (0 ≤ a ≤ 255)%Z ∧ (a = 0%Z → r = 0%Z ∧ g = 0%Z ∧ b = 0%Z).

Definition alphaOf (c : RGBA) : Z := c.2.

Lemma composite_over_opaque s d :
  alphaOf s = 255%Z → composite SourceOver s d = s.
Proof.
  destruct s as [[[sr sg] sb] sa], d as [[[dr dg] db] da]. cbn.
  intros ->. replace (255 - 255)%Z with 0%Z by lia.
  rewrite !Z.mul_0_r, !Z.add_0_r. cbn.
  by rewrite !(divRound_exact _ 65025), (divRound_exact 255 255).
Qed.

Lemma composite_over_clear s d :
  alphaOf s = 0%Z → canonicalPixel d → composite SourceOver s d = d.
Proof.
  destruct s as [[[sr sg] sb] sa], d as [[[dr dg] db] da]. cbn.
  intros -> [Hr Hz]. replace (255 - 0)%Z with 255%Z by lia.
  rewrite !Z.mul_0_r, !Z.add_0_l.
  destruct (Z.leb_spec (da * 255) 0) as [Hle|Hgt].
  - assert (da = 0%Z) as -> by lia. by destruct Hz as (-> & -> & ->).
  - rewrite !(divRound_exact _ (da * 255)) by lia.
    by rewrite (divRound_exact da 255).
Qed.

Lemma composite_over_blank s :
  canonicalPixel s → composite SourceOver s transparent = s.
Proof.
  destruct s as [[[sr sg] sb] sa]. cbn. intros [Hr Hz].
  rewrite !Z.mul_0_r, !Z.mul_0_l, !Z.add_0_r.
  destruct (Z.leb_spec (255 * sa) 0) as [Hle|Hgt].
  - assert (sa = 0%Z) as -> by lia. by destruct Hz as (-> & -> & ->).
  - rewrite !(divRound_exact _ (255 * sa)) by lia.
    rewrite (Z.mul_comm 255 sa). by rewrite (divRound_exact sa 255).
Qed.

Lemma composite_in_opaque s d :
  alphaOf s = 255%Z → canonicalPixel d → composite DestinationIn s d = d.
Proof.
  destruct s as [[[sr sg] sb] sa], d as [[[dr dg] db] da]. cbn.
  intros -> [Hr Hz]. rewrite (divRound_exact da 255) by lia.
  destruct (Z.leb_spec da 0) as [Hle|Hgt]; [|done].
  assert (da = 0%Z) as -> by lia. by destruct Hz as (-> & -> & ->).
Qed.

Lemma composite_in_clear s d :
  alphaOf s = 0%Z → composite DestinationIn s d = transparent.
Proof.
  destruct s as [[[sr sg] sb] sa], d as [[[dr dg] db] da]. cbn.
  intros ->. by rewrite Z.mul_0_r.
Qed.

Lemma composite_canonical op s d :
  (0 ≤ alphaOf s ≤ 255)%Z → (0 ≤ alphaOf d ≤ 255)%Z →
  canonicalPixel (composite op s d).
Proof.
  destruct s as [[[sr sg] sb] sa], d as [[[dr dg] db] da]. cbn.
  intros Hs Hd. destruct op; cbn.
  - destruct (Z.leb_spec (255 * sa + da * (255 - sa)) 0) as [Hle|Hgt];
      [done|].
    assert (255 ≤ 255 * sa + da * (255 - sa) ≤ 65025)%Z as Hn by nia.
    unfold divRound at 4.
    assert (1 ≤ (2 * (255 * sa + da * (255 - sa)) + 255) / (2 * 255))%Z
      by (apply Z.div_le_lower_bound; lia).
    assert ((2 * (255 * sa + da * (255 - sa)) + 255) / (2 * 255) < 256)%Z
      by (apply Z.div_lt_upper_bound; lia).
    split; lia.
  - pose proof (divRound_range sa da Hs Hd).
    destruct (Z.leb_spec (divRound (sa * da) 255) 0); [done|]. split; lia.
  - pose proof (divRound_range da sa Hd Hs).
    destruct (Z.leb_spec (divRound (da * sa) 255) 0); [done|]. split; lia.
  - assert (0 ≤ 255 - sa ≤ 255)%Z as Hc by lia.
    pose proof (divRound_range da (255 - sa) Hd Hc).
    destruct (Z.leb_spec (divRound (da * (255 - sa)) 255) 0); [done|].
    split; lia.
Qed.

(** ** Well-formed bitmaps *)

Definition isByte (v : Z) : Prop := (0 ≤ v ≤ 255)%Z.

(** A [width] x [height] bitmap of bytes. *)
Definition wfBitmap (width height : nat) (data : list Z) : Prop :=
  length data = 4 * (width * height) ∧ Forall isByte data.

(** Every mask canvas has the dimensions of the image. *)
Definition wfStore (s : System) : Prop :=
  ∀ i c, maskCanvasesRef (editor s) !! i = Some c →
    wfBitmap (dimensions (editor s)).1 (dimensions (editor s)).2 (bitmap c).

Lemma isByte_alpha data p c :
  Forall isByte data → pixelAt data p = Some c → (0 ≤ alphaOf c ≤ 255)%Z.
Proof.
  intros Hb Hp. destruct c as [[[r g] b] a].
  apply pixelAt_bytes in Hp as (_ & _ & _ & Ha).
  by apply (Forall_lookup_1 _ _ _ _ Hb Ha).
Qed.

Lemma wfBitmap_pixel width height data p :
  wfBitmap width height data → p < width * height →
  ∃ c, pixelAt data p = Some c ∧ (0 ≤ alphaOf c ≤ 255)%Z.
Proof.
  intros [Hlen Hb] Hp. destruct (pixelAt_Some data p) as [c Hc]; [lia|].
  exists c. split; [done|]. by eapply isByte_alpha.
Qed.

Lemma bitmap_ext n (d1 d2 : list Z) :
  length d1 = 4 * n → length d2 = 4 * n →
  (∀ p, p < n → pixelAt d1 p = pixelAt d2 p) → d1 = d2.
Proof.
  intros H1 H2 Hpx. apply list_eq. intros i.
  destruct (decide (i < 4 * n)) as [Hi|Hi].
  2:{ by rewrite !lookup_ge_None_2 by lia. }
  assert (i / 4 < n) as Hq by (apply Nat.Div0.div_lt_upper_bound; lia).
  destruct (pixelAt_Some d1 (i / 4)) as [[[[r g] b] a] Hc]; [lia|].
  pose proof Hc as Hc2. rewrite (Hpx _ Hq) in Hc2.
  apply pixelAt_bytes in Hc as (A0 & A1 & A2 & A3).
  apply pixelAt_bytes in Hc2 as (B0 & B1 & B2 & B3).
  pose proof (Nat.div_mod_eq i 4) as Hdm.
  pose proof (Nat.mod_upper_bound i 4) as Hm.
  destruct (i mod 4) as [|[|[|[|k]]]] eqn:Hk; [| | | |lia].
  - replace i with (4 * (i / 4)) by lia. congruence.
  - replace i with (4 * (i / 4) + 1) by lia. congruence.
  - replace i with (4 * (i / 4) + 2) by lia. congruence.
  - replace i with (4 * (i / 4) + 3) by lia. congruence.
Qed.

Lemma composite_over_opaque_dst s d :
  alphaOf d = 255%Z → (0 ≤ alphaOf s ≤ 255)%Z →
  alphaOf (composite SourceOver s d) = 255%Z.
Proof.
  destruct s as [[[sr sg] sb] sa], d as [[[dr dg] db] da]. cbn.
  intros -> Hs.
  replace (255 * sa + 255 * (255 - sa))%Z with (255 * 255)%Z by lia.
  cbn. apply (divRound_exact 255 255). lia.
Qed.

(** ** The union of the visible masks *)

(** Alpha of the mask of layer [i] at pixel [p]. *)
Definition maskAlpha (s : System) (i : string) (p : nat) : option Z :=
  m ← maskBitmap s i; alphaOf <$> pixelAt m p.

(** Some visible layer's mask is opaque at [p]. *)
Definition covered (s : System) (p : nat) : Prop :=
  ∃ l, l ∈ layers (app s) ∧ isVisible l = true
       ∧ maskAlpha s (id l) p = Some 255%Z.

(** Every visible layer's mask is transparent at [p]. *)
Definition uncovered (s : System) (p : nat) : Prop :=
  ∀ l a, l ∈ layers (app s) → isVisible l = true →
    maskAlpha s (id l) p = Some a → a = 0%Z.

Definition unionStep (s : System) (mCtx : list Z) (layer : SegmentationLayer)
    : list Z :=
  if isVisible layer
  then match maskBitmap s (id layer) with
       | Some lMask => compositeData SourceOver lMask mCtx
       | None => mCtx
       end
  else mCtx.

Lemma getCompositeMask_fold s :
  getCompositeMask s
  = foldl (unionStep s)
      (blankData (dimensions (editor s)).1 (dimensions (editor s)).2)
      (layers (app s)).
Proof. unfold getCompositeMask. by destruct (dimensions (editor s)). Qed.

Lemma length_unionFold s ls : ∀ acc,
  length (foldl (unionStep s) acc ls) = length acc.
Proof.
  induction ls as [|l ls IH]; intros acc; [done|]. cbn [foldl].
  rewrite IH. unfold unionStep. destruct (isVisible l); [|done].
  destruct (maskBitmap s (id l)); [|done]. apply length_compositeData.
Qed.

Lemma maskBitmap_wf s i m :
  wfStore s → maskBitmap s i = Some m →
  wfBitmap (dimensions (editor s)).1 (dimensions (editor s)).2 m.
Proof.
  unfold maskBitmap. intros Hwf Hm.
  destruct (maskCanvasesRef (editor s) !! i) as [c|] eqn:Hc; [|done].
  injection Hm as <-. by apply (Hwf i).
Qed.

Lemma unionFold_opaque_acc s p ls : ∀ acc c,
  wfStore s → p < (dimensions (editor s)).1 * (dimensions (editor s)).2 →
  pixelAt acc p = Some c → alphaOf c = 255%Z →
  ∃ c', pixelAt (foldl (unionStep s) acc ls) p = Some c'
        ∧ alphaOf c' = 255%Z.
Proof.
  induction ls as [|l ls IH]; intros acc c Hwf Hp Hc Ha; [by exists c|].
  cbn [foldl]. unfold unionStep at 2.
  destruct (isVisible l); [|by eapply IH].
  destruct (maskBitmap s (id l)) as [m|] eqn:Hm; [|by eapply IH].
  destruct (wfBitmap_pixel _ _ m p (maskBitmap_wf _ _ _ Hwf Hm) Hp)
    as (cm & Hcm & Hr).
  eapply IH; [done|done| |].
  - rewrite pixelAt_compositeData, Hcm, Hc. done.
  - by apply composite_over_opaque_dst.
Qed.

Lemma unionFold_covered s p ls : ∀ acc c,
  wfStore s → p < (dimensions (editor s)).1 * (dimensions (editor s)).2 →
  pixelAt acc p = Some c →
  (∃ l, l ∈ ls ∧ isVisible l = true ∧ maskAlpha s (id l) p = Some 255%Z) →
  ∃ c', pixelAt (foldl (unionStep s) acc ls) p = Some c'
        ∧ alphaOf c' = 255%Z.
Proof.
  induction ls as [|l ls IH]; intros acc c Hwf Hp Hc (l0 & Hin & Hv & Hal).
  { by apply elem_of_nil in Hin. }
  cbn [foldl]. apply elem_of_cons in Hin as [<-|Hin].
  - unfold unionStep at 2. rewrite Hv. unfold maskAlpha in Hal.
    destruct (maskBitmap s (id l0)) as [m|] eqn:Hm; [|done].
    cbn in Hal. destruct (pixelAt m p) as [cm|] eqn:Hcm; [|done].
    injection Hal as Hal.
    eapply unionFold_opaque_acc; [done|done| |].
    + rewrite pixelAt_compositeData, Hcm, Hc. done.
    + by rewrite composite_over_opaque.
  - assert (∃ c1, pixelAt (unionStep s acc l) p = Some c1) as [c1 Hc1].
    { unfold unionStep. destruct (isVisible l); [|by eexists].
      destruct (maskBitmap s (id l)) as [m|] eqn:Hm; [|by eexists].
      rewrite pixelAt_compositeData, Hc. destruct (pixelAt m p); by eexists. }
    eapply IH; [done|done|exact Hc1|]. by exists l0.
Qed.

Lemma unionFold_uncovered s p ls : ∀ acc,
  pixelAt acc p = Some transparent →
  (∀ l a, l ∈ ls → isVisible l = true →
          maskAlpha s (id l) p = Some a → a = 0%Z) →
  pixelAt (foldl (unionStep s) acc ls) p = Some transparent.
Proof.
  induction ls as [|l ls IH]; intros acc Hc Hall; [done|]. cbn [foldl].
  apply IH.
  - unfold unionStep. destruct (isVisible l) eqn:Hv; [|done].
    destruct (maskBitmap s (id l)) as [m|] eqn:Hm; [|done].
    rewrite pixelAt_compositeData, Hc.
    destruct (pixelAt m p) as [cm|] eqn:Hcm; [|done]. f_equal.
    apply composite_over_clear; [|done].
    apply (Hall l); [by left|done|]. unfold maskAlpha. rewrite Hm. cbn.
    by rewrite Hcm.
  - intros l' a Hin. apply Hall. by right.
Qed.

Lemma getCompositeMask_covered s p :
  wfStore s → p < (dimensions (editor s)).1 * (dimensions (editor s)).2 →
  covered s p →
  ∃ c, pixelAt (getCompositeMask s) p = Some c ∧ alphaOf c = 255%Z.
Proof.
  intros Hwf Hp Hc. rewrite getCompositeMask_fold.
  eapply unionFold_covered; [done|done| |done].
  by apply pixelAt_blankData.
Qed.

Lemma getCompositeMask_uncovered s p :
  p < (dimensions (editor s)).1 * (dimensions (editor s)).2 →
  uncovered s p →
  pixelAt (getCompositeMask s) p = Some transparent.
Proof.
  intros Hp Hu. rewrite getCompositeMask_fold.
  apply unionFold_uncovered; [by apply pixelAt_blankData|].
  intros l a Hin Hv Ha. by apply (Hu l a).
Qed.

Lemma length_getCompositeMask s :
  length (getCompositeMask s)
  = 4 * ((dimensions (editor s)).1 * (dimensions (editor s)).2).
Proof.
  rewrite getCompositeMask_fold, length_unionFold. apply length_blankData.
Qed.

(** ** Export: white_bg and rgba *)

(** A source pixel as [drawImage] leaves it on a fresh canvas. *)
Definition drawn (c : RGBA) : RGBA := composite SourceOver c transparent.

Lemma drawn_opaque c : alphaOf c = 255%Z → drawn c = c.
Proof. apply composite_over_opaque. Qed.

Lemma drawn_canonical c : (0 ≤ alphaOf c ≤ 255)%Z → canonicalPixel (drawn c).
Proof. intros Hc. by apply composite_canonical. Qed.

Lemma pixelAt_fillRect_blank rgb width height p :
  p < width * height →
  pixelAt (fillRect SourceOver rgb width height (blankData width height)) p
  = Some (rgb.1.1, rgb.1.2, rgb.2, 255%Z).
Proof.
  intros Hp. destruct rgb as [[r g] b]. unfold fillRect.
  rewrite pixelAt_compositeData, pixelAt_solid, pixelAt_blankData by done.
  by rewrite composite_over_opaque.
Qed.

Lemma length_fillRect op rgb width height dst :
  length (fillRect op rgb width height dst) = length dst.
Proof. destruct rgb as [[r g] b]. apply length_compositeData. Qed.

Lemma pixelAt_drawImage_blank width height img p c :
  p < width * height → pixelAt img p = Some c →
  pixelAt (compositeData SourceOver img (blankData width height)) p
  = Some (drawn c).
Proof.
  intros Hp Hc. by rewrite pixelAt_compositeData, Hc, pixelAt_blankData.
Qed.

Lemma canonical_opaqueWhite : canonicalPixel opaqueWhite.
Proof. split; [lia|]. intros [=]. Qed.

Lemma drawn_clear c : alphaOf c = 0%Z → drawn c = transparent.
Proof.
  destruct c as [[[r g] b] a]. cbn. intros ->. done.
Qed.

(** C7: where a visible layer's mask covers a pixel, the 'white_bg' and
    the 'rgba' export both hold the source pixel if it is opaque; where
    no visible layer's mask covers it, 'white_bg' holds opaque white and
    'rgba' a fully transparent pixel.  A source pixel that is itself
    fully transparent shows as opaque white in 'white_bg' and stays
    transparent in 'rgba', covered or not.  For a fully opaque source and
    a single visible layer whose mask covers the whole image both exports
    are the source image itself.  Pixels are taken opaque or transparent,
    in the source and in the masks. *)
Theorem export_union_mask (parseColor : string → Z * Z * Z) (s : System)
    (img : list Z) :
  imageRef (editor s) = Some img →
  (dimensions (editor s)).1 ≠ 0 →
  wfBitmap (dimensions (editor s)).1 (dimensions (editor s)).2 img →
  wfStore s →
  ∃ outWhite outRgba,
    processExport parseColor white_bg s = Some outWhite
    ∧ processExport parseColor rgba s = Some outRgba
    ∧ (∀ p src,
         p < (dimensions (editor s)).1 * (dimensions (editor s)).2 →
         pixelAt img p = Some src →
         (covered s p →
            (alphaOf src = 255%Z →
               pixelAt outWhite p = Some src ∧ pixelAt outRgba p = Some src)
            ∧ (alphaOf src = 0%Z →
               pixelAt outWhite p = Some opaqueWhite
               ∧ pixelAt outRgba p = Some transparent))
         ∧ (uncovered s p →
            pixelAt outWhite p = Some opaqueWhite
            ∧ pixelAt outRgba p = Some transparent))
    ∧ ((∀ p src,
          p < (dimensions (editor s)).1 * (dimensions (editor s)).2 →
          pixelAt img p = Some src → alphaOf src = 255%Z) →
       ∀ l, layers (app s) = [l] → isVisible l = true →
         (∀ p, p < (dimensions (editor s)).1 * (dimensions (editor s)).2 →
               maskAlpha s (id l) p = Some 255%Z) →
         outWhite = img ∧ outRgba = img).
Proof.
  intros Himg Hw Hwf Hst.
  pose proof (getCompositeMask_covered s) as Hcov.
  pose proof (getCompositeMask_uncovered s) as Hunc.
  pose proof (length_getCompositeMask s) as Hlen.
  unfold processExport. rewrite Himg.
  destruct (dimensions (editor s)) as [width height] eqn:Hdim.
  cbn [fst snd] in *. apply Nat.eqb_neq in Hw. rewrite Hw.
  set (mask := getCompositeMask s) in *.
  set (ctx := fillRect SourceOver (255, 255, 255)%Z width height _).
  set (base := compositeData SourceOver img _).
  eexists _, _. split; [done|]. split; [done|].
  assert (∀ p src, p < width * height → pixelAt img p = Some src →
    (covered s p →
       pixelAt (compositeData SourceOver
                  (compositeData DestinationIn mask base) ctx) p
         = Some (composite SourceOver (drawn src) opaqueWhite)
       ∧ pixelAt (compositeData DestinationIn mask base) p = Some (drawn src))
    ∧ (uncovered s p →
       pixelAt (compositeData SourceOver
                  (compositeData DestinationIn mask base) ctx) p
         = Some opaqueWhite
       ∧ pixelAt (compositeData DestinationIn mask base) p
         = Some transparent)) as Hpix.
  { intros p src Hp Hsrc.
    assert (pixelAt base p = Some (drawn src)) as Hbase
      by (by apply pixelAt_drawImage_blank).
    assert (pixelAt ctx p = Some opaqueWhite) as Hctx
      by (by apply pixelAt_fillRect_blank).
    assert (canonicalPixel (drawn src)) as Hcan.
    { apply drawn_canonical. by eapply isByte_alpha; [apply Hwf|]. }
    split.
    - intros Hc. destruct (Hcov p Hst Hp Hc) as (u & Hu & Hau).
      assert (pixelAt (compositeData DestinationIn mask base) p
              = Some (drawn src)) as Hcut.
      { rewrite pixelAt_compositeData, Hu, Hbase.
        by rewrite composite_in_opaque. }
      split; [|done]. by rewrite pixelAt_compositeData, Hcut, Hctx.
    - intros Hu. pose proof (Hunc p Hp Hu) as Hm.
      assert (pixelAt (compositeData DestinationIn mask base) p
              = Some transparent) as Hcut.
      { rewrite pixelAt_compositeData, Hm, Hbase.
        by rewrite composite_in_clear. }
      split; [|done]. rewrite pixelAt_compositeData, Hcut, Hctx.
      by rewrite composite_over_clear by (done || apply canonical_opaqueWhite). }
  split.
  - intros p src Hp Hsrc. destruct (Hpix p src Hp Hsrc) as [Hc Hu]. split.
    + intros Hcv. destruct (Hc Hcv) as [H1 H2]. split.
      * intros Ha. rewrite (drawn_opaque _ Ha) in H1, H2.
        by rewrite composite_over_opaque in H1.
      * intros Ha. rewrite (drawn_clear _ Ha) in H1, H2. by split.
    + done.
  - intros Hop l Hl Hv Hall.
    assert (∀ p, p < width * height → covered s p) as Hcv.
    { intros p Hp. exists l. rewrite Hl. split_and!; [by left|done|auto]. }
    destruct Hwf as [Hilen Hib].
    split; apply (bitmap_ext (width * height));
      rewrite ?length_compositeData; try done.
    + unfold ctx. by rewrite length_fillRect, length_blankData.
    + intros p Hp. destruct (pixelAt_Some img p) as [src Hsrc]; [lia|].
      destruct (Hpix p src Hp Hsrc) as [Hc _].
      destruct (Hc (Hcv p Hp)) as [H1 _]. rewrite H1, Hsrc.
      rewrite (drawn_opaque src) by eauto.
      by rewrite composite_over_opaque by eauto.
    + unfold base. by rewrite length_compositeData, length_blankData.
    + intros p Hp. destruct (pixelAt_Some img p) as [src Hsrc]; [lia|].
      destruct (Hpix p src Hp Hsrc) as [Hc _].
      destruct (Hc (Hcv p Hp)) as [_ H2]. rewrite H2, Hsrc.
      by rewrite (drawn_opaque src) by eauto.
Qed.

Lemma composite_in_clear_dst s : composite DestinationIn s transparent = transparent.
Proof. by destruct s as [[[sr sg] sb] sa]. Qed.

Lemma canonical_alpha c : canonicalPixel c → (0 ≤ alphaOf c ≤ 255)%Z.
Proof. destruct c as [[[r g] b] a]. by intros [? _]. Qed.

Lemma canonical_transparent : canonicalPixel transparent.
Proof. split; [lia|done]. Qed.

Lemma maskAlpha_pixel s i p a :
  maskAlpha s i p = Some a →
  ∃ m c, maskBitmap s i = Some m ∧ pixelAt m p = Some c ∧ alphaOf c = a.
Proof.
  unfold maskAlpha.
  destruct (maskBitmap s i) as [m|]; cbn; [|intros; discriminate].
  destruct (pixelAt m p) as [c|] eqn:Hc; cbn; [|intros; discriminate].
  intros [= <-]. by exists m, c.
Qed.

(** ** Export: instance *)

(** What the 'instance' export computes: the source image masked by the
    active layer's mask, and also by the mask stored under "fg" when the
    active layer is not "fg" and the mask store holds a mask for "fg";
    otherwise only the active layer's mask applies.  The test is on the
    mask store, not on the layer registry. *)
Theorem export_instance_mask (parseColor : string → Z * Z * Z) (s : System)
    (img activeMask : list Z) :
  imageRef (editor s) = Some img →
  (dimensions (editor s)).1 ≠ 0 →
  wfBitmap (dimensions (editor s)).1 (dimensions (editor s)).2 img →
  wfStore s →
  maskBitmap s (activeLayerId (app s)) = Some activeMask →
  ∃ out,
    processExport parseColor instance s = Some out
    ∧ ∀ p src a,
        p < (dimensions (editor s)).1 * (dimensions (editor s)).2 →
        pixelAt img p = Some src →
        alphaOf src = 255%Z ∨ alphaOf src = 0%Z →
        maskAlpha s (activeLayerId (app s)) p = Some a →
        (∀ f, activeLayerId (app s) ≠ "fg" →
              maskAlpha s "fg" p = Some f →
              (a = 255%Z → f = 255%Z → pixelAt out p = Some (drawn src))
              ∧ (a = 0%Z ∨ f = 0%Z → pixelAt out p = Some transparent))
        ∧ (activeLayerId (app s) = "fg" ∨ maskBitmap s "fg" = None →
              (a = 255%Z → pixelAt out p = Some (drawn src))
              ∧ (a = 0%Z → pixelAt out p = Some transparent)).
Proof.
  intros Himg Hw Hwf Hst Hact. unfold processExport. rewrite Himg, Hact.
  pose proof (maskBitmap_wf s) as Hmwf.
  destruct (dimensions (editor s)) as [width height] eqn:Hdim.
  cbn [fst snd] in *. apply Nat.eqb_neq in Hw. rewrite Hw.
  eexists. split; [done|]. intros p src a Hp Hsrc _ Ha.
  apply maskAlpha_pixel in Ha as (m & ca & Hm & Hca & Haa).
  rewrite Hact in Hm. injection Hm as <-.
  assert (pixelAt (compositeData SourceOver img (blankData width height)) p
          = Some (drawn src)) as Hbase by (by apply pixelAt_drawImage_blank).
  assert (pixelAt (compositeData SourceOver activeMask
                     (blankData width height)) p
          = Some (drawn ca)) as Hm1 by (by apply pixelAt_drawImage_blank).
  assert (canonicalPixel (drawn src)) as Hcs.
  { apply drawn_canonical. by eapply isByte_alpha; [apply Hwf|]. }
  assert (canonicalPixel (drawn ca)) as Hcc.
  { apply drawn_canonical.
    by eapply isByte_alpha; [apply (Hmwf _ _ Hst Hact)|]. }
  split.
  - intros f Hne Hf. apply maskAlpha_pixel in Hf as (fg & cf & Hfg & Hcf & Hff).
    rewrite Hfg. rewrite decide_True by done.
    rewrite (pixelAt_compositeData DestinationIn p
               (compositeData DestinationIn fg _)).
    rewrite (pixelAt_compositeData DestinationIn p fg), Hcf, Hm1, Hbase.
    split.
    + intros -> ->. rewrite (drawn_opaque ca) by done.
      by rewrite (composite_in_opaque cf ca),
        (composite_in_opaque ca (drawn src))
        by (done || by rewrite <- (drawn_opaque ca)).
    + intros [->| ->].
      * rewrite (drawn_clear ca) by done.
        by rewrite composite_in_clear_dst, composite_in_clear.
      * rewrite (composite_in_clear cf) by done.
        by rewrite composite_in_clear.
  - intros Hno.
    assert (pixelAt
      match maskBitmap s "fg" with
      | Some fgMask =>
          if decide (activeLayerId (app s) ≠ "fg")
          then compositeData DestinationIn fgMask
                 (compositeData SourceOver activeMask (blankData width height))
          else compositeData SourceOver activeMask (blankData width height)
      | None => compositeData SourceOver activeMask (blankData width height)
      end p = Some (drawn ca)) as Hmc.
    { destruct Hno as [Heq| ->]; [|done].
      destruct (maskBitmap s "fg"); [|done]. by rewrite decide_False by auto. }
    rewrite pixelAt_compositeData, Hmc, Hbase. split.
    + intros ->. rewrite (drawn_opaque ca) by done.
      by rewrite composite_in_opaque.
    + intros ->. rewrite (drawn_clear ca) by done.
      by rewrite composite_in_clear.
Qed.

(** ** Export: training_mask *)

(** The label the specification gives pixel [p]: the 1-based registry
    position of the last visible layer whose mask covers it, 0 if none. *)
Fixpoint labelAt (s : System) (p : nat) (index : nat)
    (ls : list SegmentationLayer) (acc : Z) : Z :=
  match ls with
  | [] => acc
  | l :: ls' =>
      labelAt s p (S index) ls'
        (if isVisible l && bool_decide (maskAlpha s (id l) p = Some 255%Z)
         then Z.of_nat (index + 1) else acc)
  end.

Definition gray (v : Z) : RGBA := (v, v, v, 255%Z).

(** Every visible layer's mask is opaque or transparent at [p]. *)
Definition binaryAt (s : System) (ls : list SegmentationLayer) (p : nat)
    : Prop :=
  ∀ l a, l ∈ ls → isVisible l = true → maskAlpha s (id l) p = Some a →
    a = 0%Z ∨ a = 255%Z.

Lemma pixelAt_tinted width height rgb m p c :
  p < width * height → pixelAt m p = Some c →
  pixelAt (tinted width height rgb m) p
  = Some (composite SourceIn (rgb.1.1, rgb.1.2, rgb.2, 255%Z) (drawn c)).
Proof.
  intros Hp Hc. destruct rgb as [[r g] b]. unfold tinted, fillRect.
  rewrite pixelAt_compositeData, pixelAt_solid by done.
  by rewrite (pixelAt_drawImage_blank _ _ _ _ c).
Qed.

Lemma tinted_opaque rgb c :
  alphaOf c = 255%Z →
  composite SourceIn (rgb.1.1, rgb.1.2, rgb.2, 255%Z) (drawn c)
  = (rgb.1.1, rgb.1.2, rgb.2, 255%Z).
Proof.
  intros Ha. rewrite (drawn_opaque c Ha).
  destruct c as [[[r g] b] a]. cbn in Ha. subst a. done.
Qed.

Lemma tinted_clear rgb c :
  alphaOf c = 0%Z →
  composite SourceIn (rgb.1.1, rgb.1.2, rgb.2, 255%Z) (drawn c) = transparent.
Proof. intros Ha. by rewrite (drawn_clear c Ha). Qed.

Lemma tinted_canonical rgb c :
  (0 ≤ alphaOf c ≤ 255)%Z →
  canonicalPixel
    (composite SourceIn (rgb.1.1, rgb.1.2, rgb.2, 255%Z) (drawn c)).
Proof.
  intros Hc. apply composite_canonical; [cbn; lia|].
  by apply canonical_alpha, drawn_canonical.
Qed.

Lemma paintLabels_alpha s width height p ls : ∀ index ctx c,
  wfStore s → dimensions (editor s) = (width, height) →
  p < width * height →
  pixelAt ctx p = Some c → (0 ≤ alphaOf c ≤ 255)%Z →
  ∃ c', pixelAt (paintLabels s width height index ls ctx) p = Some c'
        ∧ (0 ≤ alphaOf c' ≤ 255)%Z.
Proof.
  induction ls as [|l ls IH]; intros index ctx c Hst Hdim Hp Hc Hr;
    [by exists c|].
  cbn [paintLabels]. destruct (isVisible l); [|by eapply IH].
  destruct (maskBitmap s (id l)) as [m|] eqn:Hm; [|by eapply IH].
  pose proof (maskBitmap_wf _ _ _ Hst Hm) as Hmw. rewrite Hdim in Hmw.
  destruct (wfBitmap_pixel _ _ m p Hmw Hp) as (cm & Hcm & Hrm).
  eapply IH; [done..| |].
  - by rewrite pixelAt_compositeData, (pixelAt_tinted _ _ _ _ _ cm), Hc.
  - apply canonical_alpha, composite_canonical; [|done].
    by apply canonical_alpha, tinted_canonical.
Qed.

Lemma paintLabels_label s width height p ls : ∀ index ctx acc,
  wfStore s → dimensions (editor s) = (width, height) →
  p < width * height →
  index + length ls ≤ 255 →
  binaryAt s ls p →
  pixelAt ctx p = Some (gray acc) →
  pixelAt (paintLabels s width height index ls ctx) p
  = Some (gray (labelAt s p index ls acc)).
Proof.
  induction ls as [|l ls IH]; intros index ctx acc Hst Hdim Hp Hn Hbin Hc;
    [done|].
  cbn [paintLabels labelAt]. cbn [length] in Hn.
  assert (binaryAt s ls p) as Hbin'.
  { intros l' a Hin. apply Hbin. by right. }
  apply IH; [done|done|done|lia|done|].
  destruct (isVisible l) eqn:Hv; [|done]. cbn [andb].
  destruct (maskBitmap s (id l)) as [m|] eqn:Hm.
  2:{ rewrite bool_decide_eq_false_2; [done|]. unfold maskAlpha.
      by rewrite Hm. }
  pose proof (maskBitmap_wf _ _ _ Hst Hm) as Hmw. rewrite Hdim in Hmw.
  destruct (wfBitmap_pixel _ _ m p Hmw Hp) as (cm & Hcm & Hrm).
  assert (maskAlpha s (id l) p = Some (alphaOf cm)) as Hal.
  { unfold maskAlpha. rewrite Hm. cbn. by rewrite Hcm. }
  rewrite pixelAt_compositeData, (pixelAt_tinted _ _ _ _ _ cm), Hc by done.
  rewrite Hal. f_equal.
  destruct (Hbin l (alphaOf cm)) as [Hz|Ho]; [by left|done|done| |].
  - rewrite Hz, tinted_clear by done.
    rewrite bool_decide_eq_false_2 by (intros [=]).
    apply composite_over_clear; [done|]. split; [lia|]. intros [=].
  - rewrite Ho, tinted_opaque by done. rewrite bool_decide_eq_true_2 by done.
    rewrite composite_over_opaque by done. unfold labelColor. cbn [fst snd].
    rewrite Z.min_r by lia. done.
Qed.

(** C3: the 'training_mask' export is opaque everywhere; where the
    source image is opaque a pixel holds (id, id, id) for the 1-based
    registry position [id] of the last visible layer whose mask covers it
    and black if none does; where the source is transparent it is black.
    For two visible layers L1, L2 with L2's mask inside L1's this gives 2
    on L2's mask, 1 on the rest of L1's mask and 0 elsewhere.  Positions
    range up to 255, the largest value a colour channel holds. *)
Theorem export_training_mask (parseColor : string → Z * Z * Z) (s : System)
    (img : list Z) :
  imageRef (editor s) = Some img →
  (dimensions (editor s)).1 ≠ 0 →
  wfBitmap (dimensions (editor s)).1 (dimensions (editor s)).2 img →
  wfStore s →
  ∃ out,
    processExport parseColor training_mask s = Some out
    ∧ (∀ p, p < (dimensions (editor s)).1 * (dimensions (editor s)).2 →
         ∃ c, pixelAt out p = Some c ∧ alphaOf c = 255%Z)
    ∧ (length (layers (app s)) ≤ 255 →
       ∀ p src,
         p < (dimensions (editor s)).1 * (dimensions (editor s)).2 →
         pixelAt img p = Some src →
         binaryAt s (layers (app s)) p →
         (alphaOf src = 255%Z →
            pixelAt out p
            = Some (gray (labelAt s p 0 (layers (app s)) 0)))
         ∧ (alphaOf src = 0%Z → pixelAt out p = Some (gray 0)))
    ∧ (∀ l1 l2 p src a1 a2,
         layers (app s) = [l1; l2] →
         isVisible l1 = true → isVisible l2 = true →
         p < (dimensions (editor s)).1 * (dimensions (editor s)).2 →
         pixelAt img p = Some src → alphaOf src = 255%Z →
         maskAlpha s (id l1) p = Some a1 →
         maskAlpha s (id l2) p = Some a2 →
         (a1 = 255%Z → a2 = 255%Z → pixelAt out p = Some (gray 2))
         ∧ (a1 = 255%Z → a2 = 0%Z → pixelAt out p = Some (gray 1))
         ∧ (a1 = 0%Z → a2 = 0%Z → pixelAt out p = Some (gray 0))).
Proof.
  intros Himg Hw Hwf Hst. unfold processExport. rewrite Himg.
  destruct (dimensions (editor s)) as [width height] eqn:Hdim.
  cbn [fst snd] in *. apply Nat.eqb_neq in Hw. rewrite Hw.
  set (black := fillRect SourceOver (0, 0, 0)%Z width height _).
  set (ctx1 := paintLabels s width height 0 (layers (app s)) black).
  eexists. split; [done|].
  assert (∀ p, p < width * height → pixelAt black p = Some (gray 0)) as Hblack.
  { intros p Hp. unfold black. by rewrite pixelAt_fillRect_blank. }
  assert (∀ p src, p < width * height → pixelAt img p = Some src →
            ∃ c1, pixelAt ctx1 p = Some c1 ∧ (0 ≤ alphaOf c1 ≤ 255)%Z
                  ∧ pixelAt (compositeData SourceOver
                               (compositeData DestinationIn img ctx1) black) p
                    = Some (composite SourceOver
                              (composite DestinationIn src c1) (gray 0)))
    as Hout.
  { intros p src Hp Hsrc.
    destruct (paintLabels_alpha s width height p (layers (app s)) 0 black
                (gray 0)) as (c1 & Hc1 & Hr1); [done|done|done|auto| |].
    { cbn. lia. }
    fold ctx1 in Hc1. exists c1. split; [done|]. split; [done|].
    by rewrite !pixelAt_compositeData, Hsrc, Hc1, Hblack. }
  assert (∀ p src, p < width * height → pixelAt img p = Some src →
            binaryAt s (layers (app s)) p → length (layers (app s)) ≤ 255 →
            (alphaOf src = 255%Z →
             pixelAt (compositeData SourceOver
                        (compositeData DestinationIn img ctx1) black) p
             = Some (gray (labelAt s p 0 (layers (app s)) 0)))
            ∧ (alphaOf src = 0%Z →
               pixelAt (compositeData SourceOver
                          (compositeData DestinationIn img ctx1) black) p
               = Some (gray 0))) as Hlab.
  { intros p src Hp Hsrc Hbin Hlen.
    destruct (Hout p src Hp Hsrc) as (c1 & Hc1 & Hr1 & Ho). rewrite Ho.
    split.
    - intros Ha.
      assert (pixelAt ctx1 p = Some (gray (labelAt s p 0 (layers (app s)) 0)))
        as Hl by (apply paintLabels_label; auto).
      rewrite Hc1 in Hl. injection Hl as ->.
      rewrite composite_in_opaque; [|done|split; [lia|intros [=]]].
      by rewrite composite_over_opaque.
    - intros Ha. rewrite composite_in_clear by done.
      rewrite composite_over_clear; [done|done|]. split; [lia|intros [=]]. }
  split_and!.
  - intros p Hp. destruct (wfBitmap_pixel _ _ img p Hwf Hp) as (src & Hsrc & Hrs).
    destruct (Hout p src Hp Hsrc) as (c1 & Hc1 & Hr1 & Ho).
    eexists. split; [exact Ho|]. apply composite_over_opaque_dst; [done|].
    by apply canonical_alpha, composite_canonical.
  - intros Hlen p src Hp Hsrc Hbin. by apply Hlab.
  - intros l1 l2 p src a1 a2 Hls Hv1 Hv2 Hp Hsrc Hop H1 H2.
    assert (∀ b1 b2, a1 = b1 → a2 = b2 →
              (b1 = 0%Z ∨ b1 = 255%Z) → (b2 = 0%Z ∨ b2 = 255%Z) →
              pixelAt (compositeData SourceOver
                         (compositeData DestinationIn img ctx1) black) p
              = Some (gray (labelAt s p 0 [l1; l2] 0))) as Hcase.
    { intros b1 b2 -> -> Hb1 Hb2. rewrite <- Hls.
      apply (Hlab p src); [done|done| |rewrite Hls; cbn; lia|done].
      rewrite Hls. intros l a [->|[->|Hin]%elem_of_cons]%elem_of_cons _ Hal.
      - rewrite H1 in Hal. by injection Hal as <-.
      - rewrite H2 in Hal. by injection Hal as <-.
      - by apply elem_of_nil in Hin. }
    split_and!; intros Hb1 Hb2;
      rewrite (Hcase a1 a2) by (rewrite ?Hb1, ?Hb2; auto);
      cbn [labelAt]; rewrite Hv1, Hv2, H1, H2, Hb1, Hb2; done.
Qed.

(** ** Flood fill: the region written *)

Lemma component4_ext width height (P Q : nat * nat → Prop) seed c :
  (∀ d, inBounds width height d → P d → Q d) →
  component4 width height P seed c → component4 width height Q seed c.
Proof.
  intros HPQ Hc. induction Hc as [|c d Hc IH Hn Hd Hp]; [constructor|].
  eapply component4_step; eauto.
Qed.

Lemma colorMatch_withinTolerance width height srcData tol seed c :
  length srcData = 4 * (width * height) →
  inBounds width height seed → inBounds width height c →
  matches width srcData tol seed c ↔ withinTolerance width srcData tol seed c.
Proof.
  intros Hlen Hs Hc. unfold matches, withinTolerance, colorMatch.
  pose proof (pixelIndex_lt _ _ _ Hs) as Hls.
  pose proof (pixelIndex_lt _ _ _ Hc) as Hlc.
  destruct (pixelAt_Some srcData (pixelIndex width c)) as [[[[r g] b] a] Hpc];
    [lia|].
  destruct (pixelAt_Some srcData (pixelIndex width seed))
    as [[[[r0 g0] b0] a0] Hps]; [lia|].
  rewrite Hpc, Hps.
  apply pixelAt_bytes in Hpc as (-> & -> & -> & _).
  apply pixelAt_bytes in Hps as (-> & -> & -> & _).
  cbn [channelClose]. rewrite !andb_true_iff. split.
  - intros [[? ?] ?]. by exists r, g, b, a, r0, g0, b0, a0.
  - intros (r' & g' & b' & a' & r0' & g0' & b0' & a0' & [= <- <- <- <-]
            & [= <- <- <- <-] & ? & ? & ?). done.
Qed.

Lemma pixelAt_white data p :
  (∀ k, k < 4 → data !! (4 * p + k) = Some 255%Z) →
  pixelAt data p = Some opaqueWhite.
Proof.
  intros Hk. apply pixelAt_bytes.
  rewrite <- (Nat.add_0_r (4 * p)) at 1. split_and!; apply Hk; lia.
Qed.

Lemma pixelAt_same (d1 d2 : list Z) p :
  (∀ k, k < 4 → d1 !! (4 * p + k) = d2 !! (4 * p + k)) →
  pixelAt d1 p = pixelAt d2 p.
Proof.
  intros Hk. unfold pixelAt.
  rewrite <- (Hk 1), <- (Hk 2), <- (Hk 3) by lia.
  pose proof (Hk 0) as H0. rewrite Nat.add_0_r in H0. by rewrite H0 by lia.
Qed.

(** The bytes [floodFillData] returns: white on the 4-connected
    component of the seed, the input elsewhere. *)
Lemma floodFillData_component width height srcData tol sx sy orig :
  length srcData = 4 * (width * height) →
  length orig = 4 * (width * height) →
  inBounds width height (sx, sy) →
  let filled := floodFillData width height srcData tol sx sy orig in
  stack (floodFillState width height srcData tol sx sy orig) = []
  ∧ length filled = length orig
  ∧ ∀ c, inBounds width height c →
      (component4 width height (withinTolerance width srcData tol (sx, sy))
         (sx, sy) c →
       pixelAt filled (pixelIndex width c) = Some opaqueWhite)
      ∧ (¬ component4 width height
             (withinTolerance width srcData tol (sx, sy)) (sx, sy) c →
         pixelAt filled (pixelIndex width c)
         = pixelAt orig (pixelIndex width c))
      ∧ (component4 width height
           (withinTolerance width srcData tol (sx, sy)) (sx, sy) c
         ∨ ¬ component4 width height
               (withinTolerance width srcData tol (sx, sy)) (sx, sy) c).
Proof.
  intros Hsrc Horig Hseed.
  destruct (fillLoop_result width height srcData tol (sx, sy) orig Hseed Horig)
    as (Hstk & Hlen & Hpix).
  unfold floodFillData, floodFillState. unfold fillInit in *.
  replace ((sy * width + sx) * 4) with (4 * pixelIndex width (sx, sy))
    by (unfold pixelIndex; cbn [fst snd]; lia).
  cbn zeta in *. split; [done|]. split; [done|].
  intros c Hc. destruct (Hpix c Hc) as (Hin & Hout & Hdec).
  assert (component4 width height (matches width srcData tol (sx, sy))
            (sx, sy) c
          ↔ component4 width height
              (withinTolerance width srcData tol (sx, sy)) (sx, sy) c)
    as Hiff.
  { split; intros Hcomp; (eapply component4_ext; [|exact Hcomp]);
      intros d Hd.
    - apply (proj1 (colorMatch_withinTolerance _ _ _ _ _ _ Hsrc Hseed Hd)).
    - apply (proj2 (colorMatch_withinTolerance _ _ _ _ _ _ Hsrc Hseed Hd)). }
  split_and!.
  - intros Hcomp. apply pixelAt_white, Hin. by apply Hiff.
  - intros Hn. apply pixelAt_same, Hout. intros Hcomp. by apply Hn, Hiff.
  - by rewrite <- Hiff.
Qed.


Lemma outside_JFin z n :
  outside (JFin z) n = false ↔ (0 ≤ z < Z.of_nat n)%Z.
Proof.
  cbn [outside]. rewrite orb_false_iff, Z.ltb_ge, Z.leb_gt. lia.
Qed.

Lemma pixelIndex_coord width height p :
  p < width * height →
  inBounds width height (p mod width, p / width)
  ∧ pixelIndex width (p mod width, p / width) = p.
Proof.
  intros Hp. assert (width ≠ 0) as Hw by (intros ->; lia).
  unfold inBounds, pixelIndex. cbn [fst snd]. split_and!.
  - by apply Nat.mod_upper_bound.
  - apply Nat.Div0.div_lt_upper_bound. lia.
  - pose proof (Nat.div_mod_eq p width). lia.
Qed.

(** Lengths of the bitmaps a fill reads and writes. *)
Definition fillReady (s : System) : Prop :=
  (∀ srcData, sourceImageDataRef (editor s) = Some srcData →
     length srcData
     = 4 * ((dimensions (editor s)).1 * (dimensions (editor s)).2))
  ∧ (∀ c, maskCanvasesRef (editor s) !! activeLayerId (app s) = Some c →
       length (bitmap c)
       = 4 * ((dimensions (editor s)).1 * (dimensions (editor s)).2)).


Lemma performFloodFill_store_congr startX startY s1 s2 :
  editor s1 = editor s2 →
  activeLayerId (app s1) = activeLayerId (app s2) →
  tolerance (app s1) = tolerance (app s2) →
  maskCanvasesRef (editor (performFloodFill startX startY s1))
  = maskCanvasesRef (editor (performFloodFill startX startY s2)).
Proof.
  intros He Ha Ht. unfold performFloodFill. rewrite He, Ha, Ht.
  repeat case_match; unfold captureSnapshot, setCanvas; cbn;
    rewrite ?He, ?Ha; done.
Qed.

(** C8: filling the same seed with the same tolerance twice in a row
    leaves every mask as the first fill left it. *)
Theorem performFloodFill_idempotent (s : System) (startX startY : float) :
  fillReady s →
  maskCanvasesRef
    (editor (performFloodFill startX startY
               (performFloodFill startX startY s)))
  = maskCanvasesRef (editor (performFloodFill startX startY s)).
Proof.
  intros [Hsrc Hmask].
  assert (∀ s1, editor s1 = editor s →
            activeLayerId (app s1) = activeLayerId (app s) →
            tolerance (app s1) = tolerance (app s) →
            performFloodFill startX startY s = s1 ∨
            performFloodFill startX startY s = captureSnapshot s1 →
            maskCanvasesRef
              (editor (performFloodFill startX startY
                         (performFloodFill startX startY s)))
            = maskCanvasesRef (editor (performFloodFill startX startY s)))
    as Hsame_store.
  { intros s1 He Ha Ht Hcase.
    rewrite (performFloodFill_store_congr _ _
               (performFloodFill startX startY s) s).
    - done.
    - by destruct Hcase as [-> | ->].
    - by destruct Hcase as [-> | ->].
    - by destruct Hcase as [-> | ->]. }
  destruct (sourceImageDataRef (editor s)) as [srcData|] eqn:Hs.
  2:{ apply (Hsame_store s); try done. left. unfold performFloodFill.
      by rewrite Hs. }
  specialize (Hsrc _ eq_refl).
  destruct (dimensions (editor s)) as [width height] eqn:Hdim.
  cbn [fst snd] in *.
  destruct (outside (Math_floor startX) width
            || outside (Math_floor startY) height) eqn:Hout.
  { apply (Hsame_store s); try done. left. unfold performFloodFill.
    by rewrite Hs, Hdim, Hout. }
  destruct (maskCanvasesRef (editor s) !! activeLayerId (app s))
    as [maskCanvas|] eqn:Hm.
  2:{ apply (Hsame_store s); try done. left. unfold performFloodFill.
      by rewrite Hs, Hdim, Hout, Hm. }
  specialize (Hmask _ eq_refl).
  destruct (Math_floor startX) as [| | |zx] eqn:Hx;
    try (apply (Hsame_store s); try done; right; unfold performFloodFill;
         by rewrite Hs, Hdim, Hx, Hout, Hm).
  destruct (Math_floor startY) as [| | |zy] eqn:Hy;
    try (apply (Hsame_store s); try done; right; unfold performFloodFill;
         by rewrite Hs, Hdim, Hx, Hy, Hout, Hm).
  apply orb_false_iff in Hout as Hb. destruct Hb as [Hbx Hby].
  apply outside_JFin in Hbx, Hby.
  set (tol := colorTol (tolerance (app s))).
  set (filled := floodFillData width height srcData tol (Z.to_nat zx)
                   (Z.to_nat zy) (bitmap maskCanvas)).
  assert (inBounds width height (Z.to_nat zx, Z.to_nat zy)) as Hseed
    by (split; cbn [fst snd]; lia).
  destruct (floodFillData_component width height srcData tol (Z.to_nat zx)
              (Z.to_nat zy) (bitmap maskCanvas) Hsrc Hmask Hseed)
    as (_ & Hlen1 & Hpix1).
  fold filled in Hlen1, Hpix1.
  assert (length filled = 4 * (width * height)) as Hlen1' by congruence.
  destruct (floodFillData_component width height srcData tol (Z.to_nat zx)
              (Z.to_nat zy) filled Hsrc Hlen1' Hseed)
    as (_ & Hlen2 & Hpix2).
  assert (floodFillData width height srcData tol (Z.to_nat zx) (Z.to_nat zy)
            filled = filled) as Hsame.
  { apply (bitmap_ext (width * height)); [congruence|done|].
    intros p Hp. destruct (pixelIndex_coord width height p Hp) as [Hc Hpc].
    destruct (Hpix1 _ Hc) as (Hin1 & _ & Hdec).
    destruct (Hpix2 _ Hc) as (Hin2 & Hout2 & _).
    rewrite Hpc in *. destruct Hdec as [Hyes|Hno].
    - by rewrite Hin1, Hin2.
    - by apply Hout2. }
  set (s2 := setCanvas (activeLayerId (app s))
               {| bitmap := filled;
                  globalCompositeOperation :=
                    globalCompositeOperation maskCanvas |} s).
  assert (performFloodFill startX startY s = captureSnapshot s2) as Hfirst.
  { unfold performFloodFill. by rewrite Hs, Hdim, Hx, Hy, Hout, Hm. }
  rewrite (performFloodFill_store_congr _ _
             (performFloodFill startX startY s) s2)
    by (by rewrite Hfirst).
  rewrite Hfirst. unfold performFloodFill at 1.
  assert (editor s2
          = editor_with_canvases
              (<[activeLayerId (app s) :=
                   {| bitmap := filled;
                      globalCompositeOperation :=
                        globalCompositeOperation maskCanvas |}]>
                 (maskCanvasesRef (editor s))) (editor s)) as He2 by done.
  assert (app s2 = app s) as Ha2 by done.
  rewrite He2, Ha2. cbn [sourceImageDataRef dimensions maskCanvasesRef
    editor_with_canvases]. rewrite Hs, Hdim, Hx, Hy, Hout, lookup_insert_eq.
  cbn [bitmap globalCompositeOperation]. fold tol. rewrite Hsame.
  unfold captureSnapshot, setCanvas, s2, setCanvas. cbn.
  by rewrite insert_insert_eq.
Qed.

(** ** History *)

(** [s'] has recorded the state of [s]: the redo stack is empty and the
    layers and masks [App] held in [s] are the newest entry of [past]. *)
Definition recorded (s s' : System) : Prop :=
  historyFuture (app s') = []
  ∧ historyPast (app s') = historyPast (app s) ++ [currentItem (app s)].

Lemma app_commitRender s : app (commitRender s) = app s.
Proof. unfold commitRender. by case_decide. Qed.

Lemma recorded_appStep f s :
  historyFuture (f (app s)) = [] →
  historyPast (f (app s)) = historyPast (app s) ++ [currentItem (app s)] →
  recorded s (appStep f s).
Proof. intros Hf Hp. unfold recorded, appStep. by rewrite app_commitRender. Qed.

Lemma recorded_captureSnapshot s0 s :
  app s = app s0 → recorded s0 (captureSnapshot s).
Proof. intros Ha. unfold recorded, captureSnapshot. cbn. by rewrite Ha. Qed.

Section HistoryFacts.
Variable strokeCoverage : nat → nat → float → Point → Point → list Z.
Variable fillCoverage : nat → nat → list Point → list Z.
Variable PREDEFINED_COLORS : list string.

Lemma app_draw a b s : app (draw strokeCoverage a b s) = app s.
Proof.
  unfold draw. destruct (maskCanvasesRef (editor s) !! activeLayerId (app s));
    [|done].
  by destruct (dimensions (editor s)).
Qed.

Lemma isDrawing_draw a b s :
  isDrawing (editor (draw strokeCoverage a b s)) = isDrawing (editor s).
Proof.
  unfold draw. destruct (maskCanvasesRef (editor s) !! activeLayerId (app s));
    [|done].
  by destruct (dimensions (editor s)).
Qed.

Lemma handlePointerMove_keeps pos s :
  app (handlePointerMove strokeCoverage pos s) = app s
  ∧ isDrawing (editor (handlePointerMove strokeCoverage pos s))
    = isDrawing (editor s).
Proof.
  unfold handlePointerMove. destruct (isPanning (editor s)); [done|].
  destruct (tool (app s)); try done;
    destruct (isDrawing (editor s)) eqn:Hd; try done;
    destruct (lastPoint (editor s)); try done;
    cbn; by rewrite app_draw, isDrawing_draw.
Qed.

Lemma moves_keep moves : ∀ s,
  app (foldl (λ acc p, handlePointerMove strokeCoverage p acc) s moves) = app s
  ∧ isDrawing
      (editor (foldl (λ acc p, handlePointerMove strokeCoverage p acc) s moves))
    = isDrawing (editor s).
Proof.
  induction moves as [|p moves IH]; intros s; [done|]. cbn [foldl].
  destruct (IH (handlePointerMove strokeCoverage p s)) as [-> ->].
  apply handlePointerMove_keeps.
Qed.

(** What each mutating handler pushes: it leaves the redo stack empty
    and appends to [past] the layers and the masks object [App] holds
    when it is called, for a completed brush or eraser stroke, a polygon
    commit, a flood fill, adding, removing, hiding or showing, renaming
    or recolouring a layer, and the first half of the generation of
    layers from AI labels.  The masks object [App] holds is the snapshot
    taken when the previous action ended, or the one the last undo or
    redo set; whether it is what the mask store holds is another matter
    (see [history_entry_not_pre_action] below). *)
Lemma mutating_handlers_push :
  (∀ s p0 moves, tool (app s) = BRUSH ∨ tool (app s) = ERASER →
     recorded s (stroke strokeCoverage fillCoverage p0 moves s))
  ∧ (∀ s, 3 ≤ length (polyPoints (editor s)) →
       is_Some (maskCanvasesRef (editor s) !! activeLayerId (app s)) →
       recorded s (commitPolygon fillCoverage s))
  ∧ (∀ s startX startY,
       is_Some (sourceImageDataRef (editor s)) →
       outside (Math_floor startX) (dimensions (editor s)).1
       || outside (Math_floor startY) (dimensions (editor s)).2 = false →
       is_Some (maskCanvasesRef (editor s) !! activeLayerId (app s)) →
       recorded s (performFloodFill startX startY s))
  ∧ (∀ s newName now,
       recorded s (appStep (addLayer PREDEFINED_COLORS newName now) s))
  ∧ (∀ s i, 1 < length (layers (app s)) → recorded s (removeLayerStep i s))
  ∧ (∀ s i, recorded s (appStep (toggleVisibility i) s))
  ∧ (∀ s i updates, recorded s (appStep (updateLayer i updates) s))
  ∧ (∀ s, imageSrc (app s) = true →
       recorded s (appStep runAIDetectionStart s)).
Proof.
  split_and!.
  - intros s p0 moves Htool. unfold stroke.
    set (s1 := handlePointerDown strokeCoverage fillCoverage p0 s).
    assert (app s1 = app s ∧ isDrawing (editor s1) = true) as [Ha1 Hd1].
    { unfold s1, handlePointerDown.
      destruct Htool as [-> | ->]; by rewrite app_draw, isDrawing_draw. }
    destruct (moves_keep moves s1) as [Ha2 Hd2].
    set (s2 := foldl _ s1 moves) in *.
    unfold handlePointerUp. rewrite Ha2, Ha1.
    assert (recorded s (captureSnapshot s2)) as Hrec
      by (apply recorded_captureSnapshot; congruence).
    rewrite Hd2, Hd1. by destruct Htool as [-> | ->].
  - intros s Hlen [c Hc]. unfold commitPolygon.
    apply Nat.ltb_ge in Hlen. rewrite Hlen, Hc.
    destruct (dimensions (editor s)). by apply recorded_captureSnapshot.
  - intros s startX startY [srcData Hs] Hout [c Hc]. unfold performFloodFill.
    rewrite Hs, Hc. destruct (dimensions (editor s)). cbn [fst snd] in Hout.
    rewrite Hout.
    destruct (Math_floor startX), (Math_floor startY);
      by apply recorded_captureSnapshot.
  - intros s newName now. by apply recorded_appStep.
  - intros s i Hlen. unfold removeLayerStep.
    apply Nat.leb_gt in Hlen as Hb. rewrite Hb.
    apply recorded_appStep; unfold removeLayer; rewrite Hb;
      by case_decide.
  - intros s i. by apply recorded_appStep.
  - intros s i updates. by apply recorded_appStep.
  - intros s Himg.
    apply recorded_appStep; unfold runAIDetectionStart; by rewrite Himg.
Qed.

(** C5: invalid input changes nothing and fails nowhere: a flood-fill
    seed outside the image, a polygon commit with fewer than three
    vertices (only the pending vertices are dropped), undo with an empty
    [past], redo with an empty [future], removing the only layer. *)
Theorem invalid_input_is_noop :
  (∀ s startX startY,
     outside (Math_floor startX) (dimensions (editor s)).1
     || outside (Math_floor startY) (dimensions (editor s)).2 = true →
     performFloodFill startX startY s = s)
  ∧ (∀ s, length (polyPoints (editor s)) < 3 →
       app (commitPolygon fillCoverage s) = app s
       ∧ maskCanvasesRef (editor (commitPolygon fillCoverage s))
         = maskCanvasesRef (editor s)
       ∧ polyPoints (editor (commitPolygon fillCoverage s)) = [])
  ∧ (∀ s, historyPast (app s) = [] →
       handleUndo (app s) = app s ∧ undo s = s)
  ∧ (∀ s, historyFuture (app s) = [] →
       handleRedo (app s) = app s ∧ redo s = s)
  ∧ (∀ s i, length (layers (app s)) ≤ 1 →
       removeLayer i (app s) = app s ∧ removeLayerStep i s = s).
Proof.
  split_and!.
  - intros s startX startY Hout. unfold performFloodFill.
    destruct (sourceImageDataRef (editor s)); [|done].
    destruct (dimensions (editor s)). cbn [fst snd] in Hout. by rewrite Hout.
  - intros s Hlen. unfold commitPolygon. apply Nat.ltb_lt in Hlen.
    by rewrite Hlen.
  - intros s Hp. unfold undo, handleUndo, handleUndoSeen. by rewrite Hp.
  - intros s Hf. unfold redo, handleRedo, handleRedoSeen. by rewrite Hf.
  - intros s i Hlen. unfold removeLayerStep, removeLayer.
    apply Nat.leb_le in Hlen. by rewrite Hlen.
Qed.
End HistoryFacts.

(** C10: removing the active layer while other layers exist makes the
    first layer of the registry as it was before the removal the active
    one; when the removed layer was itself the first, the active id is
    the removed id, which no layer of the new registry carries. *)
Theorem removeLayer_active_first (a : AppState) (i : string)
    (l0 : SegmentationLayer) (rest : list SegmentationLayer) :
  layers a = l0 :: rest → rest ≠ [] → activeLayerId a = i →
  activeLayerId (removeLayer i a) = id l0
  ∧ layers (removeLayer i a) = filter (λ l, id l ≠ i) (layers a)
  ∧ (id l0 = i →
     activeLayerId (removeLayer i a) = i
     ∧ hasLayer (activeLayerId (removeLayer i a)) (layers (removeLayer i a))
       = false).
Proof.
  intros Hl Hr Ha. unfold removeLayer. rewrite Hl.
  destruct rest as [|l1 rest]; [done|]. cbn [length Nat.leb].
  rewrite decide_True by done. cbn. split_and!; try done; [by rewrite Hl|].
  intros Hid. split; [done|]. unfold hasLayer.
  apply bool_decide_eq_false_2. rewrite Hid.
  intros (l & Hin & Hli)%Exists_exists.
  by apply list_elem_of_filter in Hin as [Hne _].
Qed.

(** ** Polygon clicks *)


(** ** Undo and redo *)

(** What [handleUndo] does to the state of [App] when [past] is not
    empty: the newest entry is popped, layers and current masks come from
    the popped entry, which is also handed to the editor as
    [restoredMasks], and the active layer falls back to the first restored
    layer when its id is not in the restored registry.  The entry that
    goes to the front of [future] holds the layers [App] had and the
    masks of the popped entry. *)
Lemma handleUndo_pops (a : AppState) (past : list HistoryItem)
    (previousState : HistoryItem) :
  historyPast a = past ++ [previousState] →
  historyPast (handleUndo a) = past
  ∧ historyFuture (handleUndo a)
    = {| h_layers := layers a; h_masks := h_masks previousState |}
      :: historyFuture a
  ∧ layers (handleUndo a) = h_layers previousState
  ∧ currentMasksRef (handleUndo a) = h_masks previousState
  ∧ restoredMasks (handleUndo a) = Some (h_masks previousState)
  ∧ activeLayerId (handleUndo a)
    = (if hasLayer (activeLayerId a) (h_layers previousState)
       then activeLayerId a
       else firstIdOrFg (h_layers previousState)).
Proof.
  intros Hp. unfold handleUndo, handleUndoSeen. rewrite Hp, last_snoc.
  rewrite length_app, Nat.add_sub. cbn [length].
  rewrite take_app_length. unfold fallbackActive, restoreItem. cbn.
  by destruct (hasLayer (activeLayerId a) (h_layers previousState)).
Qed.

Lemma handleRedo_shifts (a : AppState) (nextState : HistoryItem)
    (future : list HistoryItem) :
  historyFuture a = nextState :: future →
  historyFuture (handleRedo a) = future
  ∧ historyPast (handleRedo a)
    = historyPast a
      ++ [{| h_layers := layers a; h_masks := h_masks nextState |}]
  ∧ layers (handleRedo a) = h_layers nextState
  ∧ currentMasksRef (handleRedo a) = h_masks nextState
  ∧ restoredMasks (handleRedo a) = Some (h_masks nextState)
  ∧ activeLayerId (handleRedo a)
    = (if hasLayer (activeLayerId a) (h_layers nextState)
       then activeLayerId a
       else firstIdOrFg (h_layers nextState)).
Proof.
  intros Hf. unfold handleRedo, handleRedoSeen. rewrite Hf.
  unfold fallbackActive, restoreItem. cbn.
  by destruct (hasLayer (activeLayerId a) (h_layers nextState)).
Qed.

(** The fallback is the id of the first restored layer; every id the
    application creates is non-empty. *)
Lemma firstIdOrFg_first (l0 : SegmentationLayer) (ls : list SegmentationLayer) :
  id l0 ≠ "" → firstIdOrFg (l0 :: ls) = id l0.
Proof. intros Hne. unfold firstIdOrFg. by rewrite decide_False. Qed.

(** ** Restoring the mask store *)

(** Every pixel is stored in canonical form. *)
Definition canonicalData (data : list Z) : Prop :=
  ∀ p c, pixelAt data p = Some c → canonicalPixel c.

Lemma pixelAt_solid_inv c n p c' : pixelAt (solid c n) p = Some c' → c' = c.
Proof.
  intros Hp. destruct (decide (p < n)) as [Hlt|Hge].
  - rewrite pixelAt_solid in Hp by done. by injection Hp.
  - rewrite pixelAt_None in Hp; [done|]. rewrite length_solid. lia.
Qed.

Lemma canonical_blankData width height : canonicalData (blankData width height).
Proof.
  intros p c Hp. apply pixelAt_solid_inv in Hp as ->.
  apply canonical_transparent.
Qed.

Lemma canonical_compositeData op src dst :
  canonicalData dst →
  (∀ p c, pixelAt src p = Some c → (0 ≤ alphaOf c ≤ 255)%Z) →
  canonicalData (compositeData op src dst).
Proof.
  intros Hd Hs p c. rewrite pixelAt_compositeData.
  destruct (pixelAt src p) as [cs|] eqn:Hcs; [|apply Hd].
  destruct (pixelAt dst p) as [cd|] eqn:Hcd; [|done].
  intros [= <-]. apply composite_canonical; [by eapply Hs|].
  by eapply canonical_alpha, Hd.
Qed.

Lemma whiteCoverage_alpha cov : ∀ p c,
  pixelAt (whiteCoverage cov) p = Some c → (0 ≤ alphaOf c ≤ 255)%Z.
Proof.
  induction cov as [|a cov IH]; intros p c Hp.
  - by rewrite pixelAt_None in Hp by (cbn [whiteCoverage length]; lia).
  - cbn [whiteCoverage] in Hp. destruct p as [|p].
    + rewrite pixelAt_cons4_0 in Hp. injection Hp as <-. cbn.
      unfold clamp8. lia.
    + rewrite pixelAt_cons4 in Hp. by eapply IH.
Qed.

Lemma compositeData_over_blank width height data :
  length data = 4 * (width * height) → canonicalData data →
  compositeData SourceOver data (blankData width height) = data.
Proof.
  intros Hlen Hcan. apply (bitmap_ext (width * height)); [|done|].
  - by rewrite length_compositeData, length_blankData.
  - intros p Hp. rewrite pixelAt_compositeData, pixelAt_blankData by done.
    destruct (pixelAt data p) as [c|] eqn:Hc.
    + f_equal. apply composite_over_blank. by eapply Hcan.
    + destruct (pixelAt_Some data p) as [c Hc']; [lia|congruence].
Qed.

Lemma compositeData_out_blank width height src :
  compositeData DestinationOut src (blankData width height)
  = blankData width height.
Proof.
  apply (bitmap_ext (width * height)).
  - by rewrite length_compositeData, length_blankData.
  - apply length_blankData.
  - intros p Hp. rewrite pixelAt_compositeData, pixelAt_blankData by done.
    destruct (pixelAt src p) as [[[[r g] b] a]|]; done.
Qed.

Lemma clearRect_blank width height data :
  length data = 4 * (width * height) →
  clearRect width height data = blankData width height.
Proof.
  intros Hlen. unfold clearRect. apply (bitmap_ext (width * height)).
  - by rewrite length_compositeData.
  - apply length_blankData.
  - intros p Hp.
    rewrite pixelAt_compositeData, pixelAt_solid, pixelAt_blankData by done.
    destruct (pixelAt_Some data p) as [[[[r g] b] a] ->]; [lia|].
    cbn. by rewrite Z.mul_0_r.
Qed.

(** The canvas the restoration effect leaves under key [i]. *)
Lemma lookup_restoreStore width height restored m i :
  restoreStore width height restored m !! i
  = restoreCanvas width height (entries restored !! i)
      ((λ c, {| bitmap := clearRect width height (bitmap c);
                globalCompositeOperation := globalCompositeOperation c |})
         <$> m !! i).
Proof.
  unfold restoreStore. rewrite lookup_merge, lookup_fmap. unfold diag_None.
  by destruct (entries restored !! i), (m !! i).
Qed.

Lemma ensureMasks_present (l : SegmentationLayer) (e : EditorState) :
  is_Some (maskCanvasesRef e !! id l) → ensureMasks [l] e = maskCanvasesRef e.
Proof.
  intros [c Hc]. unfold ensureMasks. destruct (_ =? 0); [done|]. cbn [foldl].
  by rewrite Hc.
Qed.

Lemma compositeData_blank_blank op width height :
  compositeData op (blankData width height) (blankData width height)
  = blankData width height.
Proof.
  apply (bitmap_ext (width * height)).
  - by rewrite length_compositeData, length_blankData.
  - apply length_blankData.
  - intros p Hp. rewrite pixelAt_compositeData, pixelAt_blankData by done.
    by destruct op.
Qed.


(** A render whose [restoredMasks] prop is a new object runs the
    restoration effect. *)
Lemma commitRender_restores s r width height :
  restoredMasks (app s) = Some r →
  dimensions (editor s) = (width, height) →
  0 < width → 0 < height →
  restoredSeen (editor s) ≠ Some (objectId r) →
  app (commitRender s) = app s
  ∧ nextObject (commitRender s) = nextObject s
  ∧ dimensions (editor (commitRender s)) = (width, height)
  ∧ restoredSeen (editor (commitRender s)) = Some (objectId r)
  ∧ maskCanvasesRef (editor (commitRender s))
    = restoreStore width height r (ensureMasks (layers (app s)) (editor s)).
Proof.
  intros Hr Hd Hw Hh Hne.
  assert ((0 <? width) = true) as Hwb by (apply Nat.ltb_lt; lia).
  assert ((0 <? height) = true) as Hhb by (apply Nat.ltb_lt; lia).
  unfold commitRender. rewrite Hr.
  cbn [fmap option_fmap option_map restoredSeen editor_with_canvases
       dimensions].
  rewrite decide_False by (intros Heq; by rewrite <- Heq in Hne).
  rewrite Hd. cbn [fst snd]. rewrite Hwb, Hhb. cbn [andb].
  by destruct s.
Qed.

(** A render whose [restoredMasks] prop is the object the restoration
    effect saw last only ensures the masks. *)
Lemma commitRender_skips s :
  objectId <$> restoredMasks (app s) = restoredSeen (editor s) →
  commitRender s
  = with_editor
      (editor_with_canvases (ensureMasks (layers (app s)) (editor s))
         (editor s)) s.
Proof.
  intros Heq. unfold commitRender.
  cbn [restoredSeen editor_with_canvases]. by rewrite decide_True.
Qed.

(** ** One stroke in a new session, then undo and redo *)

Section OneStroke.
Variable strokeCoverage : nat → nat → float → Point → Point → list Z.
Variable fillCoverage : nat → nat → list Point → list Z.
Variables (width height : nat) (pixels : list Z).
Variable imageData : option (list Z).
Variable t : ToolType.
Hypothesis width_pos : 0 < width.
Hypothesis height_pos : 0 < height.
Hypothesis brush_or_eraser : t = BRUSH ∨ t = ERASER.

(** The session right after the image has loaded, with the brush or the
    eraser selected. *)
Definition freshSession : System :=
  selectTool t (handleImageUpload width height pixels imageData initialSystem).

Lemma app_freshSession :
  app freshSession
  = {| imageSrc := true; layers := initialLayers; activeLayerId := "fg";
       historyPast := []; historyFuture := [];
       currentMasksRef := {| objectId := 1; entries := ∅ |};
       restoredMasks := Some {| objectId := 2; entries := ∅ |};
       tool := t; brushSize := 20; tolerance := 30; zoom := 1 |}.
Proof.
  unfold freshSession, selectTool, handleImageUpload. cbn [app with_app].
  by rewrite app_commitRender.
Qed.

(** What a mask canvas satisfies while the stroke is drawn. *)
Definition strokeCanvas (c : Canvas) : Prop :=
  length (bitmap c) = 4 * (width * height)
  ∧ canonicalData (bitmap c)
  ∧ match t with
    | ERASER => bitmap c = blankData width height
    | _ => globalCompositeOperation c = SourceOver
    end.

Record Painting (s : System) : Prop := {
  pt_app : app s = app freshSession;
  pt_dims : dimensions (editor s) = (width, height);
  pt_seen : restoredSeen (editor s) = Some 2;
  pt_next : nextObject s = 3;
  pt_canvas : ∃ c, maskCanvasesRef (editor s) !! "fg" = Some c
                   ∧ strokeCanvas c
}.

Lemma width_eqb : (width =? 0) = false.
Proof. apply Nat.eqb_neq. lia. Qed.

Lemma Painting_freshSession : Painting freshSession.
Proof.
  split; [done|..].
  all: unfold freshSession, selectTool, handleImageUpload.
  all: cbn [app nextObject initialSystem editor isDrawing lastPoint isPanning
            polyPoints tool brushSize tolerance with_app].
  all: set (s := {| app := _; editor := _; nextObject := 3 |}).
  all: destruct (commitRender_restores s {| objectId := 2; entries := ∅ |}
                   width height) as (Ha & Hn & Hd & Hs & Hm); try done.
  exists (blankCanvas width height). rewrite Hm.
  rewrite lookup_restoreStore.
  unfold ensureMasks. cbn [s editor dimensions fst snd maskCanvasesRef].
  rewrite width_eqb. cbn [s app layers initialLayers foldl id].
  rewrite !lookup_insert_eq. cbn.
  rewrite clearRect_blank by apply length_blankData. split; [done|].
  split; [apply length_blankData|]. split; [apply canonical_blankData|].
  by destruct t.
Qed.

Lemma draw_Painting a b s :
  Painting s → Painting (draw strokeCoverage a b s).
Proof.
  intros [Ha Hd Hs Hn (c & Hc & Hlen & Hcan & Hk)].
  unfold draw. rewrite Ha, app_freshSession. cbn [activeLayerId tool brushSize].
  rewrite Hc, Hd.
  split; cbn; try done.
  eexists. rewrite lookup_insert_eq. split; [done|]. split_and!; cbn.
    + by rewrite length_compositeData.
    + apply canonical_compositeData; [done|]. apply whiteCoverage_alpha.
    + destruct brush_or_eraser as [-> | ->]; [done|].
      rewrite Hk. apply compositeData_out_blank.
Qed.

Lemma handlePointerMove_Painting pos s :
  Painting s → Painting (handlePointerMove strokeCoverage pos s).
Proof.
  intros HP. unfold handlePointerMove. destruct (isPanning (editor s)); [done|].
  rewrite (pt_app _ HP), app_freshSession. cbn [tool].
  assert (Painting
    match isDrawing (editor s), lastPoint (editor s) with
    | true, Some lp =>
        let s1 := draw strokeCoverage lp pos s in
        with_editor
          (editor_with_pointer (isDrawing (editor s1)) (Some pos)
             (isPanning (editor s1)) (editor s1)) s1
    | _, _ => s
    end) as Hgoal.
  { destruct (isDrawing (editor s)); [|done].
    destruct (lastPoint (editor s)); [|done].
    by destruct (draw_Painting p pos s HP). }
  by destruct brush_or_eraser as [-> | ->].
Qed.

Lemma moves_Painting moves : ∀ s,
  Painting s →
  Painting (foldl (λ acc p, handlePointerMove strokeCoverage p acc) s moves).
Proof.
  induction moves as [|p moves IH]; intros s HP; [done|]. cbn [foldl].
  by apply IH, handlePointerMove_Painting.
Qed.

(** The state when the pointer is released. *)
Lemma stroke_released p0 moves :
  ∃ s2,
    Painting s2
    ∧ stroke strokeCoverage fillCoverage p0 moves freshSession
      = with_editor (editor_with_pointer false None false (editor s2))
          (captureSnapshot s2).
Proof.
  unfold stroke.
  set (s1 := handlePointerDown strokeCoverage fillCoverage p0 freshSession).
  assert (Painting s1 ∧ isDrawing (editor s1) = true) as [HP1 Hd1].
  { unfold s1, handlePointerDown. rewrite app_freshSession. cbn [tool].
    set (sd := with_editor _ freshSession).
    assert (Painting sd) as HPd by (by destruct Painting_freshSession).
    pose proof (draw_Painting p0 p0 sd HPd) as HPdraw.
    pose proof (isDrawing_draw strokeCoverage p0 p0 sd) as Hdraw.
    by destruct brush_or_eraser as [-> | ->]. }
  destruct (moves_keep strokeCoverage moves s1) as [_ Hd2].
  pose proof (moves_Painting moves s1 HP1) as HP2.
  set (s2 := foldl _ s1 moves) in *.
  exists s2. split; [done|]. unfold handlePointerUp.
  rewrite (pt_app _ HP2), app_freshSession. cbn [tool].
  rewrite Hd2, Hd1. by destruct brush_or_eraser as [-> | ->].
Qed.

Lemma snapshotOf_fg (m : gmap string Canvas) c :
  m !! "fg" = Some c →
  snapshotOf m initialLayers width !! "fg" = Some (PngURL (bitmap c)).
Proof.
  intros Hc. unfold snapshotOf, initialLayers. cbn [foldl id].
  rewrite lookup_fmap, Hc. cbn. by rewrite lookup_fmap, Hc.
Qed.

(** After exactly one brush or eraser stroke in a new session, undo
    leaves the mask all transparent.  Redo then restores the entry the
    undo pushed, whose masks are those of the popped entry: the masks
    object is again the one the session started with, the restoration
    effect does not run, and the mask stays all transparent.  The stroke
    does not come back. *)
Theorem undo_redo_after_one_stroke p0 moves :
  let s1 := stroke strokeCoverage fillCoverage p0 moves freshSession in
  maskBitmap (undo s1) "fg" = Some (blankData width height)
  ∧ maskBitmap (redo (undo s1)) "fg" = Some (blankData width height)
  ∧ currentMasksRef (app (redo (undo s1)))
    = {| objectId := 1; entries := ∅ |}
  ∧ historyFuture (app (redo (undo s1))) = [].
Proof.
  destruct (stroke_released p0 moves) as (s2 & HP & ->).
  destruct HP as [Ha Hd Hs Hn (c & Hc & Hlen & Hcan & Hk)].
  cbn zeta.
  set (s1 := with_editor _ (captureSnapshot s2)).
  assert (maskCanvasesRef (editor s1) = maskCanvasesRef (editor s2)) as Hst1
    by done.
  assert (dimensions (editor s1) = (width, height)) as Hd1 by done.
  assert (restoredSeen (editor s1) = Some 2) as Hs1 by done.
  set (snap := {| objectId := 3;
                  entries := snapshotOf (maskCanvasesRef (editor s2))
                               initialLayers width |}).
  assert (app s1 = handleSnapshot snap (app freshSession)) as Ha1.
  { unfold s1, captureSnapshot. cbn. rewrite Ha, Hn, Hd.
    by rewrite app_freshSession. }
  (* undo *)
  assert (historyPast (app s1)
          = [] ++ [currentItem (app freshSession)]) as Hpast
    by (by rewrite Ha1, app_freshSession).
  destruct (handleUndo_pops (app s1) [] _ Hpast)
    as (_ & Huf & Hul & _ & Hur & _).
  assert (undo s1 = commitRender (with_app (handleUndo (app s1)) s1)) as Hu
    by (unfold undo; by rewrite Hpast).
  destruct (commitRender_restores (with_app (handleUndo (app s1)) s1)
              {| objectId := 1; entries := ∅ |} width height)
    as (Hau & _ & Hdu & Hsu & Hmu); [|done|done|done|..].
  { cbn [app with_app]. by rewrite Hur, app_freshSession. }
  { cbn [editor with_app]. by rewrite Hs1. }
  rewrite <- Hu in Hau, Hdu, Hsu, Hmu. set (u := undo s1) in *.
  cbn [app editor with_app] in Hau, Hmu. rewrite Hul in Hmu.
  assert (maskCanvasesRef (editor u) !! "fg"
          = Some {| bitmap := blankData width height;
                    globalCompositeOperation :=
                      globalCompositeOperation c |}) as Hcu.
  { rewrite Hmu, app_freshSession. cbn [currentItem h_layers layers].
    unfold initialLayers.
    rewrite ensureMasks_present by (cbn [id]; rewrite Hst1, Hc; by eexists).
    rewrite lookup_restoreStore, Hst1, Hc. cbn.
    by rewrite clearRect_blank. }
  split.
  { unfold maskBitmap. by rewrite Hcu. }
  (* redo: the entry on [future] holds the popped masks *)
  assert (historyFuture (app u)
          = {| h_layers := initialLayers;
               h_masks := {| objectId := 1; entries := ∅ |} |} :: [])
    as Hfut.
  { rewrite Hau, Huf. by rewrite Ha1, app_freshSession. }
  destruct (handleRedo_shifts (app u) _ _ Hfut)
    as (Hrf & _ & Hrl & Hrm & Hrr & _).
  cbn [h_layers h_masks] in Hrl, Hrm, Hrr.
  assert (redo u = commitRender (with_app (handleRedo (app u)) u)) as Hr
    by (unfold redo; by rewrite Hfut).
  rewrite Hr, commitRender_skips
    by (cbn [app editor with_app]; by rewrite Hrr, Hsu).
  cbn [app editor with_app with_editor editor_with_canvases maskCanvasesRef].
  split_and!; [|done..].
  unfold maskBitmap.
  cbn [editor with_editor editor_with_canvases maskCanvasesRef].
  rewrite Hrl. unfold initialLayers.
  rewrite ensureMasks_present by (cbn [id]; rewrite Hcu; by eexists).
  by rewrite Hcu.
Qed.
End OneStroke.

(** ** A small session, used to exercise the statements above *)

#[global] Instance isByte_dec v : Decision (isByte v).
Proof. unfold isByte. apply _. Defined.

#[global] Instance wfBitmap_dec width height data :
  Decision (wfBitmap width height data).
Proof. unfold wfBitmap. apply _. Defined.

Lemma wfStore_decide s :
  bool_decide
    (map_Forall
       (λ _ c, wfBitmap (dimensions (editor s)).1 (dimensions (editor s)).2
                 (bitmap c))
       (maskCanvasesRef (editor s))) = true →
  wfStore s.
Proof. intros H. by apply bool_decide_eq_true_1 in H. Defined.


(** A rasteriser whose every path covers the whole image. *)
Definition coverAll (width height : nat) (_ : float) (_ _ : Point) : list Z :=
  replicate (width * height) 255%Z.

Definition fillAll (width height : nat) (_ : list Point) : list Z :=
  replicate (width * height) 255%Z.

Definition demoColors : list string := ["#3b82f6"; "#22c55e"].

Definition demoParse (_ : string) : Z * Z * Z := (0, 0, 0)%Z.

Definition pt (x y : float) : Point := {| px := x; py := y |}.

(** A 2 x 1 opaque image: a dark pixel and a light pixel. *)
Definition demoImage : list Z := [10; 20; 30; 255; 200; 210; 220; 255]%Z.

Definition demoStart : System :=
  handleImageUpload 2 1 demoImage (Some demoImage) initialSystem.

(** The brush painted over the whole "fg" mask. *)
Definition demoPainted : System :=
  stroke coverAll fillAll (pt 0 0) [] demoStart.

(** A second layer, whose mask holds the left pixel only. *)
Definition demoTwoLayers : System :=
  performFloodFill 0.5 0.5
    (appStep (addLayer demoColors "New Instance" "1") demoPainted).

(** Layer "fg" left empty, a second layer filled on the left pixel, and
    "fg" then removed from the registry. *)
Definition demoFgRemoved : System :=
  removeLayerStep "fg"
    (performFloodFill 0.5 0.5
       (appStep (addLayer demoColors "New Instance" "1") demoStart)).

Example demoTwoLayers_masks :
  maskBitmap demoTwoLayers "fg"
    = Some [255; 255; 255; 255; 255; 255; 255; 255]%Z
  ∧ maskBitmap demoTwoLayers "inst-1"
    = Some [255; 255; 255; 255; 0; 0; 0; 0]%Z
  ∧ activeLayerId (app demoTwoLayers) = "inst-1".
Proof. split_and!; vm_compute; reflexivity. Qed.

(** *** C2 and C8 at the small session *)

Lemma demoStart_fillReady : fillReady demoStart.
Proof.
  split.
  - intros srcData Hs. vm_compute in Hs. injection Hs as <-.
    vm_compute. reflexivity.
  - intros c Hc. vm_compute in Hc. injection Hc as <-.
    vm_compute. reflexivity.
Defined.






Lemma performFloodFill_idempotent_witness :
  fillReady demoStart
  ∧ maskCanvasesRef
      (editor (performFloodFill 0.5 0.5 (performFloodFill 0.5 0.5 demoStart)))
    = maskCanvasesRef (editor (performFloodFill 0.5 0.5 demoStart)).
Proof.
  split; [exact demoStart_fillReady|].
  exact (performFloodFill_idempotent demoStart 0.5 0.5 demoStart_fillReady).
Defined.

(** The tolerance scale in integers: for a whole tolerance from 0 to 99
    the test [d <= tolerance * 2.55] on a channel difference [d] is
    [100 * d <= 255 * tolerance]; at 100 the product is just below 255,
    so a difference of 255 does not pass. *)
Definition toleranceAgrees (t d : Z) : bool :=
  eqb (PrimFloat.leb (z2f d) (colorTol (z2f t))) (100 * d <=? 255 * t)%Z.

Definition upTo (n : nat) : list Z := Z.of_nat <$> seq 0 n.

Lemma colorTol_integer_scale :
  forallb (λ t, forallb (toleranceAgrees t) (upTo 256)) (upTo 100) = true
  ∧ forallb (toleranceAgrees 100) (upTo 255) = true
  ∧ PrimFloat.leb (z2f 255) (colorTol 100) = false.
Proof. split_and!; vm_compute; reflexivity. Qed.

(** *** C7 at the small session *)

Lemma demoImage_wf : wfBitmap 2 1 demoImage.
Proof. apply (bool_decide_unpack _). vm_compute. exact I. Defined.

Lemma demoPainted_wfStore : wfStore demoPainted.
Proof. apply wfStore_decide. vm_compute. reflexivity. Defined.

Lemma demoTwoLayers_wfStore : wfStore demoTwoLayers.
Proof. apply wfStore_decide. vm_compute. reflexivity. Defined.

Lemma demoFgRemoved_wfStore : wfStore demoFgRemoved.
Proof. apply wfStore_decide. vm_compute. reflexivity. Defined.

(** With the whole image covered both exports are the image; with the
    left pixel covered and the right one not, the left pixel is the
    source pixel and the right one is opaque white, or transparent. *)
Lemma export_union_mask_witness :
  imageRef (editor demoPainted) = Some demoImage
  ∧ (dimensions (editor demoPainted)).1 ≠ 0
  ∧ wfBitmap 2 1 demoImage
  ∧ wfStore demoPainted
  ∧ processExport demoParse white_bg demoPainted = Some demoImage
  ∧ processExport demoParse rgba demoPainted = Some demoImage
  ∧ wfStore demoFgRemoved
  ∧ ∃ outWhite outRgba,
      processExport demoParse white_bg demoFgRemoved = Some outWhite
      ∧ processExport demoParse rgba demoFgRemoved = Some outRgba
      ∧ pixelAt outWhite 0 = Some (10, 20, 30, 255)%Z
      ∧ pixelAt outRgba 0 = Some (10, 20, 30, 255)%Z
      ∧ pixelAt outWhite 1 = Some opaqueWhite
      ∧ pixelAt outRgba 1 = Some transparent.
Proof.
  assert (imageRef (editor demoPainted) = Some demoImage) as Himg
    by (vm_compute; reflexivity).
  assert ((dimensions (editor demoPainted)).1 ≠ 0) as Hw
    by (vm_compute; discriminate).
  destruct (export_union_mask demoParse demoPainted demoImage Himg Hw
              demoImage_wf demoPainted_wfStore)
    as (outWhite & outRgba & HW & HR & _ & Hround).
  assert (outWhite = demoImage ∧ outRgba = demoImage) as [EW ER].
  { apply (Hround
             ltac:(intros [|[|p]] src Hp Hsrc;
                   [vm_compute in Hsrc; by injection Hsrc as <-
                   |vm_compute in Hsrc; by injection Hsrc as <-
                   |vm_compute in Hp; lia])
             {| id := "fg"; name := "Foreground"; color := "#ef4444";
                isVisible := true; isLocked := false |}).
    - vm_compute. reflexivity.
    - reflexivity.
    - intros [|[|p]] Hp;
        [vm_compute; reflexivity|vm_compute; reflexivity
        |vm_compute in Hp; lia]. }
  rewrite EW in HW. rewrite ER in HR.
  assert (imageRef (editor demoFgRemoved) = Some demoImage) as Himg2
    by (vm_compute; reflexivity).
  assert ((dimensions (editor demoFgRemoved)).1 ≠ 0) as Hw2
    by (vm_compute; discriminate).
  destruct (export_union_mask demoParse demoFgRemoved demoImage Himg2 Hw2
              demoImage_wf demoFgRemoved_wfStore)
    as (outWhite2 & outRgba2 & HW2 & HR2 & Hpix & _).
  destruct (Hpix 0 (10, 20, 30, 255)%Z) as [Hcov _];
    [vm_compute; lia|vm_compute; reflexivity|].
  destruct Hcov as [Hop _].
  { exists {| id := "inst-1"; name := "New Instance"; color := "#22c55e";
              isVisible := true; isLocked := false |}.
    split; [|split; vm_compute; reflexivity].
    assert (layers (app demoFgRemoved)
            = [{| id := "inst-1"; name := "New Instance"; color := "#22c55e";
                  isVisible := true; isLocked := false |}]) as Hls
      by (vm_compute; reflexivity).
    rewrite Hls. apply elem_of_cons. by left. }
  destruct (Hop eq_refl) as [HW0 HR0].
  destruct (Hpix 1 (200, 210, 220, 255)%Z) as [_ Hunc];
    [vm_compute; lia|vm_compute; reflexivity|].
  destruct Hunc as [HW1 HR1].
  { intros l a Hl Hv Ha.
    assert (layers (app demoFgRemoved)
            = [{| id := "inst-1"; name := "New Instance"; color := "#22c55e";
                  isVisible := true; isLocked := false |}]) as Hls
      by (vm_compute; reflexivity).
    rewrite Hls in Hl. apply elem_of_cons in Hl. destruct Hl as [Hl|Hl].
    - subst l. vm_compute in Ha. injection Ha as <-. reflexivity.
    - apply elem_of_nil in Hl. destruct Hl. }
  split_and!; [exact Himg|exact Hw|exact demoImage_wf
    |exact demoPainted_wfStore|exact HW|exact HR
    |exact demoFgRemoved_wfStore|].
  exists outWhite2, outRgba2.
  split_and!; [exact HW2|exact HR2|exact HW0|exact HR0|exact HW1|exact HR1].
Defined.

(** *** C3 at the small session *)

Lemma export_training_mask_witness :
  imageRef (editor demoTwoLayers) = Some demoImage
  ∧ (dimensions (editor demoTwoLayers)).1 ≠ 0
  ∧ wfBitmap 2 1 demoImage
  ∧ wfStore demoTwoLayers
  ∧ ∃ out,
      processExport demoParse training_mask demoTwoLayers = Some out
      ∧ pixelAt out 0 = Some (gray 2)
      ∧ pixelAt out 1 = Some (gray 1).
Proof.
  assert (imageRef (editor demoTwoLayers) = Some demoImage) as Himg
    by (vm_compute; reflexivity).
  assert ((dimensions (editor demoTwoLayers)).1 ≠ 0) as Hw
    by (vm_compute; discriminate).
  split_and!; [exact Himg|exact Hw|exact demoImage_wf
    |exact demoTwoLayers_wfStore|].
  destruct (export_training_mask demoParse demoTwoLayers demoImage Himg Hw
              demoImage_wf demoTwoLayers_wfStore)
    as (out & Hout & _ & _ & Htwo).
  exists out. split; [exact Hout|].
  assert (∀ p src a1 a2,
            p < 2 → pixelAt demoImage p = Some src → alphaOf src = 255%Z →
            maskAlpha demoTwoLayers "fg" p = Some a1 →
            maskAlpha demoTwoLayers "inst-1" p = Some a2 →
            (a1 = 255%Z → a2 = 255%Z → pixelAt out p = Some (gray 2))
            ∧ (a1 = 255%Z → a2 = 0%Z → pixelAt out p = Some (gray 1))
            ∧ (a1 = 0%Z → a2 = 0%Z → pixelAt out p = Some (gray 0))) as H.
  { intros p src a1 a2 Hp Hsrc Ha H1 H2.
    apply (Htwo
             {| id := "fg"; name := "Foreground"; color := "#ef4444";
                isVisible := true; isLocked := false |}
             {| id := "inst-1"; name := "New Instance"; color := "#22c55e";
                isVisible := true; isLocked := false |} p src a1 a2);
      first [assumption | vm_compute; reflexivity]. }
  split.
  - apply (H 0 (10, 20, 30, 255)%Z 255%Z 255%Z);
      first [lia | vm_compute; reflexivity].
  - apply (H 1 (200, 210, 220, 255)%Z 255%Z 0%Z);
      first [lia | vm_compute; reflexivity].
Defined.

(** *** The 'instance' export at the small session *)

(** The 'instance' export as the specification words it: the "fg" mask
    bounds the result when the active layer is not "fg" and the layer
    registry holds a layer "fg". *)
Definition instanceExport_asSpecified (s : System) : option (list Z) :=
  match imageRef (editor s) with
  | None => None
  | Some img =>
      let '(width, height) := dimensions (editor s) in
      if width =? 0 then None
      else
        let blank := blankData width height in
        let maskComposite :=
          match maskBitmap s (activeLayerId (app s)) with
          | Some activeMask =>
              let m := compositeData SourceOver activeMask blank in
              match maskBitmap s "fg" with
              | Some fgMask =>
                  if bool_decide (activeLayerId (app s) ≠ "fg")
                     && hasLayer "fg" (layers (app s))
                  then compositeData DestinationIn fgMask m
                  else m
              | None => m
              end
          | None => blank
          end in
        Some (compositeData DestinationIn maskComposite
                (compositeData SourceOver img blank))
  end.

Lemma export_instance_mask_witness :
  imageRef (editor demoTwoLayers) = Some demoImage
  ∧ (dimensions (editor demoTwoLayers)).1 ≠ 0
  ∧ wfBitmap 2 1 demoImage
  ∧ wfStore demoTwoLayers
  ∧ maskBitmap demoTwoLayers (activeLayerId (app demoTwoLayers))
    = Some [255; 255; 255; 255; 0; 0; 0; 0]%Z
  ∧ ∃ out,
      processExport demoParse instance demoTwoLayers = Some out
      ∧ pixelAt out 0 = Some (10, 20, 30, 255)%Z
      ∧ pixelAt out 1 = Some transparent.
Proof.
  assert (imageRef (editor demoTwoLayers) = Some demoImage) as Himg
    by (vm_compute; reflexivity).
  assert ((dimensions (editor demoTwoLayers)).1 ≠ 0) as Hw
    by (vm_compute; discriminate).
  assert (maskBitmap demoTwoLayers (activeLayerId (app demoTwoLayers))
          = Some [255; 255; 255; 255; 0; 0; 0; 0]%Z) as Hact
    by (vm_compute; reflexivity).
  split_and!; [exact Himg|exact Hw|exact demoImage_wf
    |exact demoTwoLayers_wfStore|exact Hact|].
  destruct (export_instance_mask demoParse demoTwoLayers demoImage _ Himg Hw
              demoImage_wf demoTwoLayers_wfStore Hact) as (out & Hout & Hpix).
  exists out. split; [exact Hout|]. split.
  - destruct (Hpix 0 (10, 20, 30, 255)%Z 255%Z) as [Hfg _];
      [vm_compute; lia|vm_compute; reflexivity|left; reflexivity
      |vm_compute; reflexivity|].
    destruct (Hfg 255%Z) as [Hin _];
      [vm_compute; discriminate|vm_compute; reflexivity|].
    exact (Hin eq_refl eq_refl).
  - destruct (Hpix 1 (200, 210, 220, 255)%Z 0%Z) as [Hfg _];
      [vm_compute; lia|vm_compute; reflexivity|left; reflexivity
      |vm_compute; reflexivity|].
    destruct (Hfg 255%Z) as [_ Hout'];
      [vm_compute; discriminate|vm_compute; reflexivity|].
    apply Hout'. by left.
Defined.

(** C1: the 'instance' export is the source image masked by the active
    layer's mask and, when the active layer is not "fg", by the "fg"
    layer's mask; with no "fg" layer in the registry only the active
    layer's mask should apply.  Here it does not: [removeLayer] takes
    "fg" out of the registry and leaves its canvas in the mask store, so
    the guard on [fgMask] never sees it missing.  The active layer covers
    the left pixel, the registry has no layer "fg", and the export is
    empty instead of holding the left pixel of the source. *)
Lemma export_instance_removed_fg :
  hasLayer "fg" (layers (app demoFgRemoved)) = false
  ∧ activeLayerId (app demoFgRemoved) = "inst-1"
  ∧ maskBitmap demoFgRemoved "inst-1"
    = Some [255; 255; 255; 255; 0; 0; 0; 0]%Z
  ∧ maskBitmap demoFgRemoved "fg" = Some [0; 0; 0; 0; 0; 0; 0; 0]%Z
  ∧ instanceExport_asSpecified demoFgRemoved
    = Some [10; 20; 30; 255; 0; 0; 0; 0]%Z
  ∧ processExport demoParse instance demoFgRemoved
    = Some [0; 0; 0; 0; 0; 0; 0; 0]%Z
  ∧ processExport demoParse instance demoFgRemoved
    ≠ instanceExport_asSpecified demoFgRemoved.
Proof.
  split_and!; try (vm_compute; reflexivity). vm_compute. discriminate.
Qed.

(** *** C9 at the small session *)

(** The polygon tool after three clicks at (0,0), (5,0) and (5,5). *)
Definition demoTriangle : System :=
  handlePointerDown coverAll fillAll (pt 5 5)
    (handlePointerDown coverAll fillAll (pt 5 0)
       (handlePointerDown coverAll fillAll (pt 0 0)
          (selectTool POLYGON demoStart))).


(** A click exactly [10 / zoom] away from the first vertex does not
    close the polygon. *)
Example polygon_click_on_radius :
  zoom (app demoTriangle) = 1%float
  ∧ distance (pt 0 0) (pt 10 0) = 10%float
  ∧ polyPoints (editor (handlePointerDown coverAll fillAll (pt 10 0)
                          demoTriangle))
    = [pt 0 0; pt 5 0; pt 5 5; pt 10 0].
Proof. split_and!; vm_compute; reflexivity. Qed.

(** *** C5 at the small session *)

(** The polygon tool after two clicks. *)
Definition demoTwoPoints : System :=
  handlePointerDown coverAll fillAll (pt 5 0)
    (handlePointerDown coverAll fillAll (pt 0 0)
       (selectTool POLYGON demoPainted)).

Lemma invalid_input_is_noop_witness :
  performFloodFill (-1) 0.5 demoPainted = demoPainted
  ∧ (app (commitPolygon fillAll demoTwoPoints) = app demoTwoPoints
     ∧ maskCanvasesRef (editor (commitPolygon fillAll demoTwoPoints))
       = maskCanvasesRef (editor demoTwoPoints)
     ∧ polyPoints (editor (commitPolygon fillAll demoTwoPoints)) = [])
  ∧ undo demoStart = demoStart
  ∧ redo demoPainted = demoPainted
  ∧ removeLayerStep "fg" demoPainted = demoPainted.
Proof.
  destruct (invalid_input_is_noop fillAll) as (H1 & H2 & H3 & H4 & H5).
  split; [apply H1; vm_compute; reflexivity|].
  split; [apply H2; vm_compute; lia|].
  split; [apply (H3 demoStart); vm_compute; reflexivity|].
  split; [apply (H4 demoPainted); vm_compute; reflexivity|].
  apply (H5 demoPainted "fg"). vm_compute. lia.
Defined.

(** *** C10 at the small session *)

(** Two layers, the first one active. *)
Definition demoFirstActive : AppState :=
  app_with_active "fg" (app demoTwoLayers).

Lemma removeLayer_active_first_witness :
  (id <$> layers demoFirstActive) = ["fg"; "inst-1"]
  ∧ activeLayerId demoFirstActive = "fg"
  ∧ activeLayerId (removeLayer "fg" demoFirstActive) = "fg"
  ∧ (id <$> layers (removeLayer "fg" demoFirstActive)) = ["inst-1"]
  ∧ hasLayer (activeLayerId (removeLayer "fg" demoFirstActive))
      (layers (removeLayer "fg" demoFirstActive)) = false.
Proof.
  pose proof (removeLayer_active_first demoFirstActive "fg"
                {| id := "fg"; name := "Foreground"; color := "#ef4444";
                   isVisible := true; isLocked := false |}
                [{| id := "inst-1"; name := "New Instance";
                    color := "#22c55e"; isVisible := true;
                    isLocked := false |}]
                ltac:(vm_compute; reflexivity) ltac:(discriminate)
                ltac:(vm_compute; reflexivity)) as (Hact & Hls & Hfirst).
  destruct (Hfirst eq_refl) as [Hact' Hgone].
  split_and!.
  - vm_compute. reflexivity.
  - vm_compute. reflexivity.
  - exact Hact'.
  - rewrite Hls. vm_compute. reflexivity.
  - exact Hgone.
Defined.

(** *** C4 at the small session *)

Definition whiteMask : list Z := [255; 255; 255; 255; 255; 255; 255; 255]%Z.

(** After one brush stroke, undo clears the mask.  Redo does not bring
    the stroke back: the entry undo left on [future] holds the masks of
    the popped entry, which record nothing for "fg". *)
Example undo_redo_one_stroke :
  maskBitmap demoPainted "fg" = Some whiteMask
  ∧ maskBitmap (undo demoPainted) "fg" = Some (blankData 2 1)
  ∧ (λ item, entries (h_masks item) !! "fg")
      <$> head (historyFuture (app (undo demoPainted))) = Some None
  ∧ maskBitmap (redo (undo demoPainted)) "fg" = Some (blankData 2 1).
Proof. split_and!; vm_compute; reflexivity. Qed.

(** A brush stroke followed by an eraser stroke. *)
Definition demoErased : System :=
  stroke coverAll fillAll (pt 0 0) [] (selectTool ERASER demoPainted).

(** A brush stroke, undo, and a second brush stroke. *)
Definition demoRepainted : System :=
  stroke coverAll fillAll (pt 0 0) [] (undo demoPainted).

(** The masks of the newest entry of [past], as a restore reads them. *)
Definition poppedMask (s : System) (i : string) : option (option DataURL) :=
  (λ item, entries (h_masks item) !! i) <$> last (historyPast (app s)).

(** C4: undo pops the newest entry and hands it to the editor, and the
    mask store does not always end up holding it.
    - Brush stroke, eraser stroke, undo: the popped entry holds the
      painted mask and [App] records it as current, and the mask is
      empty, since the restoration draws the entry through the context
      the eraser left in 'destination-out'.
    - Brush stroke, undo, brush stroke, undo: the popped entry holds no
      mask data, and the second stroke stays on the mask, since
      [restoredMasks] is set to the object it already holds and the
      restoration effect does not run. *)
Theorem undo_leaves_masks_unrestored :
  (poppedMask demoErased "fg" = Some (Some (PngURL whiteMask))
   ∧ entries (currentMasksRef (app (undo demoErased))) !! "fg"
     = Some (PngURL whiteMask)
   ∧ maskBitmap (undo demoErased) "fg" = Some (blankData 2 1))
  ∧ (poppedMask demoRepainted "fg" = Some None
     ∧ entries (currentMasksRef (app (undo demoRepainted))) !! "fg" = None
     ∧ maskBitmap (undo demoRepainted) "fg" = Some whiteMask).
Proof. split_and!; vm_compute; reflexivity. Qed.

(** *** C6 at the small session *)

(** Brush stroke, eraser stroke, undo, and then a brush stroke. *)
Definition demoUndoneStroke : System :=
  stroke coverAll fillAll (pt 0 0) [] (selectTool BRUSH (undo demoErased)).

(** A brush stroke, then the generation of layers from labels with an
    undo while the label service is awaited. *)
Definition demoAwaitUndo : System :=
  appStep (runAIDetectionResolved demoColors 1 ["cat"] (λ _, "2"))
    (undo (appStep runAIDetectionStart demoPainted)).

(** C6: a mutating action should leave the redo stack empty and push the
    state before the action.  Two inputs where it does not.
    - Brush stroke, eraser stroke, undo, brush stroke.  Before the last
      stroke the mask of "fg" is empty (the restoration of the undo drew
      nothing), and the entry the stroke pushes records the painted
      mask: what is pushed is the masks object [App] holds, which the
      mask store no longer agrees with.
    - Brush stroke, generation of layers from labels, undo while the
      label service is awaited.  The push is made before the service is
      called; when the layers arrive the registry is replaced, and the
      redo stack holds the entry of the undo. *)
Theorem history_entry_not_pre_action :
  (maskBitmap (selectTool BRUSH (undo demoErased)) "fg"
   = Some (blankData 2 1)
   ∧ poppedMask demoUndoneStroke "fg" = Some (Some (PngURL whiteMask))
   ∧ maskBitmap demoUndoneStroke "fg" = Some whiteMask)
  ∧ (historyFuture (app (appStep runAIDetectionStart demoPainted)) = []
     ∧ id <$> layers (app demoAwaitUndo) = ["ai-0-2"]
     ∧ length (historyFuture (app demoAwaitUndo)) = 1).
Proof. split_and!; vm_compute; reflexivity. Qed.
